(** * sbytetrack: the multi-class ByteTrack orchestrator

    A shallow embedding of [sbytetrack/core.py] and [sbytetrack/utils.py].

    Numbers.  Python [int]s are [Z].  The floats the tracker holds and
    compares (scores, thresholds, box coordinates, costs) are finite and
    are the rationals they denote ([Q], read up to [==]); a comparison of
    floats is then an exact comparison of rationals.  Where the source
    does arithmetic on floats, the arithmetic is IEEE 754 with rounding to
    nearest even, on the binary formats of the standard library's
    [SpecFloat]: [box_iou_batch] and [1 - ious] on float32 or float64
    arrays with numpy's promotion, [int(frame_rate / 30.0 *
    lost_track_buffer)] and [track_activation_threshold + 0.1] on Python
    floats (binary64).  The arrays the tracker builds itself are float64.

    Objects.  Tracks are mutable Python objects shared between lists; the
    model keeps them in a store ([heap]) and the lists hold handles.
    Exceptions leave the mutations made so far in place: a call returns a
    [result] together with the state it reached. *)

From Stdlib Require Import ZArith QArith Qminmax Qround Lqa Lia.
From Stdlib Require Import Floats.SpecFloat.
From stdpp Require Import gmap list sorting.

Set Default Proof Using "Type".
Local Open Scope Z_scope.

(** ** Exceptions and results *)

Inductive exn := KeyError | IndexError | ValueError | OverflowError.

Inductive result (A : Type) :=
| Ok (a : A)
| Raise (e : exn).
Arguments Ok {A} a.
Arguments Raise {A} e.

#[global] Instance exn_eq_dec : EqDecision exn.
Proof. solve_decision. Defined.

#[global] Instance result_ret : MRet result := fun _ a => Ok a.
#[global] Instance result_bind : MBind result := fun _ _ f m =>
  match m with Ok a => f a | Raise e => Raise e end.

(** [l[i]] for a non-negative index: [IndexError] out of range. *)
Definition getitem {A} (l : list A) (i : nat) : result A :=
  match l !! i with Some a => Ok a | None => Raise IndexError end.

(** [l[i] = v] for a non-negative index: [IndexError] out of range. *)
Definition setitem {A} (l : list A) (i : nat) (v : A) : result (list A) :=
  if decide (i < length l)%nat then Ok (<[i := v]> l) else Raise IndexError.

(** ** Floats *)

(** The double nearest to a decimal literal of the source, as a rational. *)
Definition float_0_1 : Q := 3602879701896397 # 36028797018963968.
Definition float_0_15 : Q := 5404319552844595 # 36028797018963968.
Definition float_0_5 : Q := 1 # 2.
Definition float_0_7 : Q := 3152519739159347 # 4503599627370496.

Definition Qltb (x y : Q) : bool := negb (Qle_bool y x).

(** The two floating dtypes of numpy and their binary formats: the
    precision and the exponent bound that the operations of [SpecFloat]
    take.  A Python [float] is a float64. *)
Inductive dtype := float32 | float64.

Definition prec (d : dtype) : Z := match d with float32 => 24 | float64 => 53 end.
Definition emax (d : dtype) : Z := match d with float32 => 128 | float64 => 1024 end.

(** [np.result_type] of two floating dtypes. *)
Definition promote (d1 d2 : dtype) : dtype :=
  match d1, d2 with
  | float32, float32 => float32
  | _, _ => float64
  end.

(** The arithmetic of a dtype: the result is correctly rounded, overflows
    to an infinity and is NaN for [0/0] and [inf - inf]. *)
Definition fadd (d : dtype) : spec_float -> spec_float -> spec_float :=
  SFadd (prec d) (emax d).
Definition fsub (d : dtype) : spec_float -> spec_float -> spec_float :=
  SFsub (prec d) (emax d).
Definition fmul (d : dtype) : spec_float -> spec_float -> spec_float :=
  SFmul (prec d) (emax d).
Definition fdiv (d : dtype) : spec_float -> spec_float -> spec_float :=
  SFdiv (prec d) (emax d).

(** [x.astype(d)]: the value of [x] rounded into the format of [d]; no
    rounding happens from float32 to float64. *)
Definition cast (d : dtype) (x : spec_float) : spec_float :=
  match x with
  | S754_finite s m e =>
      binary_normalize (prec d) (emax d) (if s then Zneg m else Zpos m) e s
  | _ => x
  end.

Definition is_nan (x : spec_float) : bool :=
  match x with S754_nan => true | _ => false end.

Definition is_finite (x : spec_float) : bool :=
  match x with S754_zero _ | S754_finite _ _ _ => true | _ => false end.

(** [np.maximum] and [np.minimum] on two floats: the first operand when
    it is NaN or the comparison holds, else the second. *)
Definition fmaximum (x y : spec_float) : spec_float :=
  if SFleb y x || is_nan x then x else y.
Definition fminimum (x y : spec_float) : spec_float :=
  if SFleb x y || is_nan x then x else y.

(** [np.finfo(d).max] *)
Definition max_float (d : dtype) : spec_float :=
  S754_finite false (Z.to_pos (2 ^ prec d - 1)) (emax d - prec d).

(** [np.nan_to_num] on an array of dtype [d]: NaN becomes 0.0, the
    infinities the largest finite floats of the dtype. *)
Definition nan_to_num (d : dtype) (x : spec_float) : spec_float :=
  match x with
  | S754_nan => S754_zero false
  | S754_infinity false => max_float d
  | S754_infinity true => SFopp (max_float d)
  | _ => x
  end.

(** The rational a finite float denotes (0 for the others, which the
    tracker never holds). *)
Definition value (x : spec_float) : Q :=
  match x with
  | S754_finite s m e =>
      ((if s then Zneg m else Zpos m) # 1) * Qpower 2 e
  | _ => 0
  end.

(** [float(z)] for a Python int: the nearest double, [OverflowError] when
    there is none ("int too large to convert to float"). *)
Definition float_of_int (z : Z) : result spec_float :=
  match binary_normalize (prec float64) (emax float64) z 0 false with
  | S754_infinity _ => Raise OverflowError
  | x => Ok x
  end.

(** [int(x)] for a Python float: truncation toward zero; [OverflowError]
    on an infinity, [ValueError] on NaN. *)
Definition int_of_float (x : spec_float) : result Z :=
  match x with
  | S754_zero _ => Ok 0
  | S754_finite s m e =>
      let a := match e with
               | Z0 => Zpos m
               | Zpos p => Z.shiftl (Zpos m) (Zpos p)
               | Zneg p => Z.shiftr (Zpos m) (Zpos p)
               end in
      Ok (if s then - a else a)
  | S754_infinity _ => Raise OverflowError
  | S754_nan => Raise ValueError
  end.

(** The double nearest to a rational: [np.float64] of a number the
    tracker holds, which is that number when it is a double. *)
Definition float64_of_Q (q : Q) : spec_float :=
  match Qnum q with
  | Z0 => S754_zero false
  | Zpos n => fdiv float64 (S754_finite false n 0) (S754_finite false (Qden q) 0)
  | Zneg n => fdiv float64 (S754_finite true n 0) (S754_finite false (Qden q) 0)
  end.

(** [x + y] on two Python floats. *)
Definition float64_add (x y : Q) : Q :=
  value (fadd float64 (float64_of_Q x) (float64_of_Q y)).

(** ** utils.py: IdCounter *)

Module IdCounter.

Record t := mk { start_id : Z; _id : Z }.

Definition NO_ID : Z := -1.

Definition reset (c : t) : t := {| start_id := start_id c; _id := start_id c |}.

Definition init (start : Z) : result t :=
  if start <=? NO_ID then Raise ValueError
  else Ok (reset {| start_id := start; _id := start |}).

Definition new_id (c : t) : Z * t :=
  let returned_id := _id c in
  (returned_id, {| start_id := start_id c; _id := _id c + 1 |}).


End IdCounter.

(** ** utils.py: box_iou_batch *)

(** A box as the tracker holds it. *)
Record box := mk_box { x_min : Q; y_min : Q; x_max : Q; y_max : Q }.

(** A row [(x_min, y_min, x_max, y_max)] of an array of boxes, and an
    array of shape (N, 4) with its dtype. *)
Record fbox := mk_fbox {
  fx_min : spec_float; fy_min : spec_float; fx_max : spec_float; fy_max : spec_float
}.

Record box_array := mk_box_array { dtype_of : dtype; rows_of : list fbox }.

(** A two-dimensional float array: its dtype, its shape and its rows.
    The shape is kept apart because an array of no rows still has a
    number of columns. *)
Record float_array := mk_float_array {
  arr_dtype : dtype; arr_rows : nat; arr_cols : nat;
  arr_entries : list (list spec_float)
}.

(** [box_area], in the dtype of the array the box is a row of. *)
Definition box_area (d : dtype) (b : fbox) : spec_float :=
  fmul d (fsub d (fx_max b) (fx_min b)) (fsub d (fy_max b) (fy_min b)).

(** [np.prod(np.clip(bottom_right - top_left, a_min=0, a_max=None), 2)]
    for one pair of rows, in the promoted dtype [d]; [np.clip] without an
    upper bound is [np.maximum] with the lower one. *)
Definition area_inter (d : dtype) (a b : fbox) : spec_float :=
  let top_left_x := fmaximum (cast d (fx_min a)) (cast d (fx_min b)) in
  let top_left_y := fmaximum (cast d (fy_min a)) (cast d (fy_min b)) in
  let bottom_right_x := fminimum (cast d (fx_max a)) (cast d (fx_max b)) in
  let bottom_right_y := fminimum (cast d (fy_max a)) (cast d (fy_max b)) in
  fmul d (fmaximum (fsub d bottom_right_x top_left_x) (S754_zero false))
         (fmaximum (fsub d bottom_right_y top_left_y) (S754_zero false)).

(** [area_true[:, None] + area_detection - area_inter]: the two areas,
    each computed in the dtype of its own array, are added in the
    promoted dtype. *)
Definition area_union (d_true d_detection : dtype) (a b : fbox) : spec_float :=
  let d := promote d_true d_detection in
  fsub d (fadd d (cast d (box_area d_true a)) (cast d (box_area d_detection b)))
         (area_inter d a b).

(** One entry of [ious] before [np.nan_to_num]. *)
Definition iou_raw (d_true d_detection : dtype) (a b : fbox) : spec_float :=
  let d := promote d_true d_detection in
  fdiv d (area_inter d a b) (area_union d_true d_detection a b).

Definition box_iou_batch (boxes_true boxes_detection : box_array) : float_array :=
  let d := promote (dtype_of boxes_true) (dtype_of boxes_detection) in
  {| arr_dtype := d;
     arr_rows := length (rows_of boxes_true);
     arr_cols := length (rows_of boxes_detection);
     arr_entries :=
       (fun a => (fun b => nan_to_num d
                             (iou_raw (dtype_of boxes_true) (dtype_of boxes_detection) a b))
                   <$> rows_of boxes_detection)
       <$> rows_of boxes_true |}.

(** [1 - ious] *)
Definition one_minus (a : float_array) : float_array :=
  {| arr_dtype := arr_dtype a; arr_rows := arr_rows a; arr_cols := arr_cols a;
     arr_entries :=
       (fun row : list spec_float =>
          fsub (arr_dtype a) (cast (arr_dtype a) (S754_finite false 1 0)) <$> row)
       <$> arr_entries a |}.

(** A matrix of costs as the association engine reads it: its shape and
    the rationals its entries denote. *)
Record matrix := mk_matrix { n_rows : nat; n_cols : nat; entries : list (list Q) }.

Definition matrix_of (a : float_array) : matrix :=
  {| n_rows := arr_rows a; n_cols := arr_cols a;
     entries := (fun row : list spec_float => value <$> row) <$> arr_entries a |}.

(** [np.asarray] of a list of boxes of the tracker: a float64 array. *)
Definition asarray (boxes : list box) : box_array :=
  {| dtype_of := float64;
     rows_of := (fun b => mk_fbox (float64_of_Q (x_min b)) (float64_of_Q (y_min b))
                            (float64_of_Q (x_max b)) (float64_of_Q (y_max b)))
                <$> boxes |}.

(** ** core.py: the lost-track window of [BYTETrack.__init__] *)

(** The literal [30.0]. *)
Definition float_30 : spec_float := S754_finite false 8444249301319680 (-48).

(** [int(frame_rate / 30.0 * lost_track_buffer)]: the two ints are
    converted to floats as they are met, the quotient and the product are
    rounded, and the product is truncated. *)
Definition max_time_lost_of (frame_rate lost_track_buffer : Z) : result Z :=
  rate ← float_of_int frame_rate;
  let ratio := fdiv float64 rate float_30 in
  buffer ← float_of_int lost_track_buffer;
  int_of_float (fmul float64 ratio buffer).

(** The same window in the words of the spec,
    [round(lost_track_buffer * frame_rate / 30)]: the nearest integer, a
    tie going to the even one as Python's [round] has it. *)
Definition round_half_even (q : Q) : Z :=
  let f := Qfloor q in
  let r := (q - inject_Z f)%Q in
  if Qltb r (1 # 2) then f
  else if Qltb (1 # 2) r then f + 1
  else if Z.even f then f else f + 1.

Definition max_time_lost_spec (lost_track_buffer frame_rate : Z) : Z :=
  round_half_even (inject_Z (lost_track_buffer * frame_rate) / 30).

(** The window is the floor of [frame_rate * lost_track_buffer / 30], or,
    only where 30 divides the product and not the frame rate, one less. *)
Definition window_ok (frame_rate lost_track_buffer : Z) : bool :=
  let exact := frame_rate * lost_track_buffer / 30 in
  match max_time_lost_of frame_rate lost_track_buffer with
  | Ok w =>
      (w =? exact) ||
      ((w =? exact - 1) && (frame_rate * lost_track_buffer mod 30 =? 0) &&
       negb (frame_rate mod 30 =? 0))
  | Raise _ => false
  end.


(** ** The motion filter

    [sbytetrack/kalman_filter.py] is not part of the visible sources: the
    filter is taken as a parameter, with the operations the spec lists
    (section 4.3) and the box a filter state stands for. *)

Record tlwh := mk_tlwh { tl_x : Q; tl_y : Q; width : Q; height : Q }.

Class KalmanFilter := {
  kstate : Type;
  kf_initiate : tlwh -> kstate;
  kf_predict : kstate -> kstate;
  kf_update : kstate -> tlwh -> kstate;
  kf_tlbr : kstate -> box
}.

Inductive TrackState := New | Tracked | Lost | Removed.

#[global] Instance TrackState_eq_dec : EqDecision TrackState.
Proof. solve_decision. Defined.

(** ** The track entity *)

Module STrack.
Section WithFilter.
Context `{KF : KalmanFilter}.

(** Modelled from the spec: [sbytetrack/single_object_track.py] is not
    part of the visible sources.  The attributes are those of spec
    section 3, under the names [core.py] reads them by; [tracklet_len] is
    the consecutive-match streak, [mean] the track's own filter state. *)
Record t := mk {
  internal_track_id : Z;
  external_track_id : Z;
  state : TrackState;
  is_activated : bool;
  frame_id : Z;
  start_frame : Z;
  score : Q;
  tracklet_len : Z;
  minimum_consecutive_frames : Z;
  _tlwh : tlwh;
  mean : option kstate
}.

(** Modelled from the spec: the static conversion between the two box
    encodings of the glossary. *)
Definition tlbr_to_tlwh (b : box) : tlwh :=
  {| tl_x := x_min b; tl_y := y_min b;
     width := (x_max b - x_min b)%Q; height := (y_max b - y_min b)%Q |}.

Definition tlwh_to_tlbr (b : tlwh) : box :=
  {| x_min := tl_x b; y_min := tl_y b;
     x_max := (tl_x b + width b)%Q; y_max := (tl_y b + height b)%Q |}.

(** Modelled from the spec: a track as constructed is in state New, not
    activated, and holds no id yet (both ids are the sentinel). *)
Definition new (box_tlwh : tlwh) (score : Q) (minimum_consecutive_frames : Z) : t :=
  {| internal_track_id := IdCounter.NO_ID;
     external_track_id := IdCounter.NO_ID;
     state := New;
     is_activated := false;
     frame_id := 0;
     start_frame := 0;
     score := score;
     tracklet_len := 0;
     minimum_consecutive_frames := minimum_consecutive_frames;
     _tlwh := box_tlwh;
     mean := None |}.

(** Modelled from the spec: the current box of a track, from its filter
    state once it has one, else the box it was constructed with. *)
Definition tlbr (tr : t) : box :=
  match mean tr with
  | Some k => kf_tlbr k
  | None => tlwh_to_tlbr (_tlwh tr)
  end.

(** Modelled from the spec (section 4.2, [activate]): New -> Tracked;
    allocates the internal id if there is none yet, the external id only
    when one frame suffices, in which case the track is activated;
    initialises the filter from the detection's geometry. *)
Definition activate (frame : Z) (internal external : IdCounter.t) (tr : t)
  : t * IdCounter.t * IdCounter.t :=
  let '(iid, internal') :=
    if decide (internal_track_id tr = IdCounter.NO_ID)
    then IdCounter.new_id internal
    else (internal_track_id tr, internal) in
  let immediate := bool_decide (minimum_consecutive_frames tr = 1) in
  let '(eid, external') :=
    if immediate then IdCounter.new_id external
    else (external_track_id tr, external) in
  ({| internal_track_id := iid;
      external_track_id := eid;
      state := Tracked;
      is_activated := if immediate then true else is_activated tr;
      frame_id := frame;
      start_frame := frame;
      score := score tr;
      tracklet_len := tracklet_len tr;
      minimum_consecutive_frames := minimum_consecutive_frames tr;
      _tlwh := _tlwh tr;
      mean := Some (kf_initiate (_tlwh tr)) |}, internal', external').

(** Modelled from the spec (section 4.2, [update]): corrects the filter
    with the new geometry, refreshes score and frame, increments the
    streak and activates the track once the streak reaches the required
    number of frames. *)
Definition update (new_track : t) (frame : Z) (tr : t) : t :=
  let streak := tracklet_len tr + 1 in
  {| internal_track_id := internal_track_id tr;
     external_track_id := external_track_id tr;
     state := Tracked;
     is_activated :=
       if decide (minimum_consecutive_frames tr <= streak) then true
       else is_activated tr;
     frame_id := frame;
     start_frame := start_frame tr;
     score := score new_track;
     tracklet_len := streak;
     minimum_consecutive_frames := minimum_consecutive_frames tr;
     _tlwh := _tlwh new_track;
     mean := (fun k => kf_update k (_tlwh new_track)) <$> mean tr |}.

(** Modelled from the spec (section 4.2, [re_activate]): Lost -> Tracked;
    corrects the filter, resets score and geometry, marks the track
    activated and keeps its external id; the frame of the last update
    (section 3, [frame_id]) is the frame of the call. *)
Definition re_activate (new_track : t) (frame : Z) (tr : t) : t :=
  {| internal_track_id := internal_track_id tr;
     external_track_id := external_track_id tr;
     state := Tracked;
     is_activated := true;
     frame_id := frame;
     start_frame := start_frame tr;
     score := score new_track;
     tracklet_len := tracklet_len tr;
     minimum_consecutive_frames := minimum_consecutive_frames tr;
     _tlwh := _tlwh new_track;
     mean := (fun k => kf_update k (_tlwh new_track)) <$> mean tr |}.

(** Modelled from the spec ([multi_predict], one track of the pool):
    advances the track's filter by one frame. *)
Definition predict (tr : t) : t :=
  {| internal_track_id := internal_track_id tr;
     external_track_id := external_track_id tr;
     state := state tr;
     is_activated := is_activated tr;
     frame_id := frame_id tr;
     start_frame := start_frame tr;
     score := score tr;
     tracklet_len := tracklet_len tr;
     minimum_consecutive_frames := minimum_consecutive_frames tr;
     _tlwh := _tlwh tr;
     mean := kf_predict <$> mean tr |}.

(** [track.state = s], the assignment the orchestrator makes itself. *)
Definition set_state (s : TrackState) (tr : t) : t :=
  {| internal_track_id := internal_track_id tr;
     external_track_id := external_track_id tr;
     state := s;
     is_activated := is_activated tr;
     frame_id := frame_id tr;
     start_frame := start_frame tr;
     score := score tr;
     tracklet_len := tracklet_len tr;
     minimum_consecutive_frames := minimum_consecutive_frames tr;
     _tlwh := _tlwh tr;
     mean := mean tr |}.

#[export] Instance t_inhabited : Inhabited t :=
  populate (new (mk_tlwh 0 0 0 0) 0 1).

End WithFilter.
End STrack.
Export (hints) STrack.

(** ** The association engine

    [sbytetrack/matching.py] is not part of the visible sources: its three
    functions are parameters.  [linear_assignment] returns the matched (row, column) pairs, the
    unmatched rows and the unmatched columns.  [float_add] is the binary64
    addition of [track_activation_threshold + 0.1]. *)

Class Matching `{KF : KalmanFilter} := {
  iou_distance : list STrack.t -> list STrack.t -> matrix;
  fuse_score : matrix -> list STrack.t -> matrix;
  linear_assignment : matrix -> Q -> list (nat * nat) * list nat * list nat;
  float_add : Q -> Q -> Q
}.

(** Modelled from the spec (section 4.4): what the three functions return
    has the shape the spec gives it.  [iou_distance] of N tracks and M
    detections is an N x M matrix, [fuse_score] keeps the shape, and
    [linear_assignment] returns pairs of a row index and a column index
    of the matrix, and unmatched row and column indices of it. *)
Record matcher_ok `{MA : Matching} : Prop := {
  iou_distance_shape : forall a b,
    n_rows (iou_distance a b) = length a /\ n_cols (iou_distance a b) = length b /\
    length (entries (iou_distance a b)) = length a /\
    Forall (fun row => length row = length b) (entries (iou_distance a b));
  fuse_score_shape : forall m d,
    n_rows (fuse_score m d) = n_rows m /\ n_cols (fuse_score m d) = n_cols m;
  linear_assignment_range : forall m thresh,
    Forall (fun p => (p.1 < n_rows m)%nat /\ (p.2 < n_cols m)%nat)
      (linear_assignment m thresh).1.1 /\
    Forall (fun i => (i < n_rows m)%nat) (linear_assignment m thresh).1.2 /\
    Forall (fun j => (j < n_cols m)%nat) (linear_assignment m thresh).2
}.

(** ** Stateful code: state passing with exceptions

    A method is a function from the state before the call to its result
    and the state after it; a raised exception keeps the state reached. *)

Definition M (S A : Type) : Type := S -> result A * S.

#[global] Instance M_ret {S} : MRet (M S) := fun _ a st => (Ok a, st).
#[global] Instance M_bind {S} : MBind (M S) := fun _ _ f m st =>
  match m st with
  | (Ok a, st') => f a st'
  | (Raise e, st') => (Raise e, st')
  end.

Definition gets {S A} (f : S -> A) : M S A := fun st => (Ok (f st), st).
Definition modify {S} (f : S -> S) : M S unit := fun st => (Ok tt, f st).
Definition lift {S A} (r : result A) : M S A := fun st => (r, st).

(** [for a in l: b = f(b, a)] *)
Fixpoint foldM `{MBind F, MRet F} {A B} (f : B -> A -> F B) (b : B) (l : list A) : F B :=
  match l with
  | [] => mret b
  | a :: l' => b' ← f b a; foldM f b' l'
  end.

(** What a computation guarantees: from a state in [P] it ends, when it
    returns [a], in a state in [Q a], and when it raises, in a state in
    [E]. *)
Definition triple {S A} (P : S -> Prop) (m : M S A) (Q : A -> S -> Prop)
    (E : S -> Prop) : Prop :=
  forall st, P st ->
    match m st with
    | (Ok a, st') => Q a st'
    | (Raise _, st') => E st'
    end.


(** A computation that, from a state in [I], returns, in a state in [I]:
    it raises nothing. *)
Definition safe {S A} (I : S -> Prop) (m : M S A) : Prop :=
  triple I m (fun _ => I) (fun _ => False).

(** ** numpy helpers *)

(** [range(n)] *)
Definition range (n : Z) : list Z := Z.of_nat <$> seq 0 (Z.to_nat n).

(** [a[mask]] for a boolean mask of the length of [a]. *)
Definition mask {A} (a : list A) (m : list bool) : list A :=
  (filter (fun p => p.2 = true) (zip a m)).*1.

(** [np.argsort] of integer keys.  The default sort of numpy is not
    stable; the keys sorted by the source are pairwise distinct, for which
    every sorting algorithm returns the same indices. *)
Definition key_le (p q : nat * nat) : Prop := (p.1 <= q.1)%nat.

#[global] Instance key_le_dec p q : Decision (key_le p q).
Proof. unfold key_le. apply _. Defined.

Definition argsort (keys : list nat) : list nat :=
  (merge_sort key_le (zip keys (seq 0 (length keys)))).*2.

(** [a[indices]] for an array of non-negative indices. *)
Definition take_indices {A} (a : list A) (indices : list nat) : result (list A) :=
  mapM (getitem a) indices.

(** The pairs of [np.where(m < c)]: the positions, row by row, of the
    entries of a matrix below [c]. *)
Definition where_lt (m : matrix) (c : Q) : list (nat * nat) :=
  mjoin (imap (fun i row =>
           (fun p => (i, p.1)) <$> filter (fun p => Qltb p.2 c = true) (imap pair row))
           (entries m)).

(** A Python [dict] keyed by ints in insertion order: assigning to a key
    that is there keeps its position. *)
Fixpoint dict_set {V} (k : Z) (v : V) (d : list (Z * V)) : list (Z * V) :=
  match d with
  | [] => [(k, v)]
  | (k', v') :: d' => if decide (k = k') then (k, v) :: d' else (k', v') :: dict_set k v d'
  end.

Definition dict_pop {V} (k : Z) (d : list (Z * V)) : list (Z * V) :=
  filter (fun kv => kv.1 ≠ k) d.

Definition dict_get {V} (d : gmap Z V) (k : Z) : result V :=
  match d !! k with Some v => Ok v | None => Raise KeyError end.

(** ** core.py: BYTETrack *)

Abbreviation handle := nat.

Section Tracker.
Context `{MA : Matching}.

(** The attributes of a [BYTETrack] object, and the store of the track
    objects its lists refer to.  The two [KalmanFilter()] objects hold
    no state of their own; they are the filter parameter. *)
Record BYTETrack := mkBYTETrack {
  track_activation_threshold : Q;
  minimum_matching_threshold : Q;
  frame_id : Z;
  det_thresh : Q;
  max_time_lost : Z;
  minimum_consecutive_frames : Z;
  tracked_tracks : list handle;
  lost_tracks : list handle;
  removed_tracks : list handle;
  internal_id_counter : IdCounter.t;
  external_id_counter : IdCounter.t;
  n_classes : Z;
  cls2tracked_tracks : gmap Z (list handle);
  heap : list STrack.t
}.

Definition set_frame_id (v : Z) (st : BYTETrack) : BYTETrack :=
  mkBYTETrack (track_activation_threshold st) (minimum_matching_threshold st)
    v (det_thresh st) (max_time_lost st) (minimum_consecutive_frames st)
    (tracked_tracks st) (lost_tracks st) (removed_tracks st)
    (internal_id_counter st) (external_id_counter st) (n_classes st)
    (cls2tracked_tracks st) (heap st).

Definition set_tracked_tracks (v : list handle) (st : BYTETrack) : BYTETrack :=
  mkBYTETrack (track_activation_threshold st) (minimum_matching_threshold st)
    (frame_id st) (det_thresh st) (max_time_lost st) (minimum_consecutive_frames st)
    v (lost_tracks st) (removed_tracks st)
    (internal_id_counter st) (external_id_counter st) (n_classes st)
    (cls2tracked_tracks st) (heap st).

Definition set_lost_tracks (v : list handle) (st : BYTETrack) : BYTETrack :=
  mkBYTETrack (track_activation_threshold st) (minimum_matching_threshold st)
    (frame_id st) (det_thresh st) (max_time_lost st) (minimum_consecutive_frames st)
    (tracked_tracks st) v (removed_tracks st)
    (internal_id_counter st) (external_id_counter st) (n_classes st)
    (cls2tracked_tracks st) (heap st).

Definition set_removed_tracks (v : list handle) (st : BYTETrack) : BYTETrack :=
  mkBYTETrack (track_activation_threshold st) (minimum_matching_threshold st)
    (frame_id st) (det_thresh st) (max_time_lost st) (minimum_consecutive_frames st)
    (tracked_tracks st) (lost_tracks st) v
    (internal_id_counter st) (external_id_counter st) (n_classes st)
    (cls2tracked_tracks st) (heap st).

Definition set_counters (i e : IdCounter.t) (st : BYTETrack) : BYTETrack :=
  mkBYTETrack (track_activation_threshold st) (minimum_matching_threshold st)
    (frame_id st) (det_thresh st) (max_time_lost st) (minimum_consecutive_frames st)
    (tracked_tracks st) (lost_tracks st) (removed_tracks st)
    i e (n_classes st)
    (cls2tracked_tracks st) (heap st).

Definition set_cls2tracked_tracks (v : gmap Z (list handle)) (st : BYTETrack) : BYTETrack :=
  mkBYTETrack (track_activation_threshold st) (minimum_matching_threshold st)
    (frame_id st) (det_thresh st) (max_time_lost st) (minimum_consecutive_frames st)
    (tracked_tracks st) (lost_tracks st) (removed_tracks st)
    (internal_id_counter st) (external_id_counter st) (n_classes st)
    v (heap st).

Definition set_heap (v : list STrack.t) (st : BYTETrack) : BYTETrack :=
  mkBYTETrack (track_activation_threshold st) (minimum_matching_threshold st)
    (frame_id st) (det_thresh st) (max_time_lost st) (minimum_consecutive_frames st)
    (tracked_tracks st) (lost_tracks st) (removed_tracks st)
    (internal_id_counter st) (external_id_counter st) (n_classes st)
    (cls2tracked_tracks st) v.

(** [BYTETrack.__init__] *)
Definition init (n_classes : Z) (track_activation_threshold : Q)
    (lost_track_buffer : Z) (minimum_matching_threshold : Q)
    (frame_rate : Z) (minimum_consecutive_frames : Z) : result BYTETrack :=
  max_time_lost ← max_time_lost_of frame_rate lost_track_buffer;
  internal_id_counter ← IdCounter.init 0;
  external_id_counter ← IdCounter.init 1;
  Ok {| track_activation_threshold := track_activation_threshold;
        minimum_matching_threshold := minimum_matching_threshold;
        frame_id := 0;
        det_thresh := float_add track_activation_threshold float_0_1;
        max_time_lost := max_time_lost;
        minimum_consecutive_frames := minimum_consecutive_frames;
        tracked_tracks := [];
        lost_tracks := [];
        removed_tracks := [];
        internal_id_counter := internal_id_counter;
        external_id_counter := external_id_counter;
        n_classes := n_classes;
        cls2tracked_tracks := list_to_map ((fun i => (i, [])) <$> range n_classes);
        heap := [] |}.

(** The constructor with every optional argument at its default. *)
Definition init_default (n_classes : Z) : result BYTETrack :=
  init n_classes (1 # 4) 30 (3602879701896397 # 4503599627370496) 30 1.

(** [BYTETrack._cls_group]: the loop over [enumerate(zip(...))]. *)
Fixpoint cls_group_loop (order : nat) (dets : list (box * Q * Z))
    (cls2boxes : gmap Z (list box * list Q * list nat))
  : result (gmap Z (list box * list Q * list nat)) :=
  match dets with
  | [] => Ok cls2boxes
  | (xyxy, conf, cls_id) :: dets' =>
      '(boxes, confs, orders) ← dict_get cls2boxes cls_id;
      cls_group_loop (S order) dets'
        (<[cls_id := (boxes ++ [xyxy], confs ++ [conf], orders ++ [order])]> cls2boxes)
  end.

Definition _cls_group (n_classes : Z) (xyxy_array : list box)
    (conf_array : list Q) (cls_array : list Z)
  : result (gmap Z (list box * list Q * list nat)) :=
  let cls2boxes := list_to_map ((fun cls_id => (cls_id, ([], [], []))) <$> range n_classes) in
  cls_group_loop 0 (zip (zip xyxy_array conf_array) cls_array) cls2boxes.

(** [BYTETrack.reset] *)
Definition reset (st : BYTETrack) : BYTETrack :=
  let st := set_frame_id 0 st in
  let st := set_counters (IdCounter.reset (internal_id_counter st))
              (IdCounter.reset (external_id_counter st)) st in
  let st := set_tracked_tracks [] st in
  let st := set_lost_tracks [] st in
  set_removed_tracks [] st.

(** *** Track objects in the store *)

Definition track (hp : list STrack.t) (h : handle) : STrack.t := hp !!! h.

Definition tracks_of (hp : list STrack.t) (hs : list handle) : list STrack.t :=
  track hp <$> hs.

(** A call [track.method(...)] that changes only the track. *)
Definition on_track (h : handle) (f : STrack.t -> STrack.t) : M BYTETrack unit :=
  modify (fun st => set_heap (alter f h (heap st)) st).

(** [STrack(...)]: a new object. *)
Definition new_strack (d : box * Q) : M BYTETrack handle :=
  fun st =>
    let tr := STrack.new (STrack.tlbr_to_tlwh d.1) d.2 (minimum_consecutive_frames st) in
    (Ok (length (heap st)), set_heap (heap st ++ [tr]) st).

(** [track.activate(self.kalman_filter, frame_id)]: draws on the two
    counters of the tracker, which every track shares. *)
Definition activate_track (h : handle) (frame : Z) : M BYTETrack unit :=
  fun st =>
    let '(tr, internal, external) :=
      STrack.activate frame (internal_id_counter st) (external_id_counter st)
        (track (heap st) h) in
    (Ok tt, set_heap (<[h := tr]> (heap st)) (set_counters internal external st)).

(** *** The list helpers of core.py *)

Definition joint_tracks (hp : list STrack.t) (track_list_a track_list_b : list handle)
  : list handle :=
  (foldl (fun '(seen_track_ids, result) h =>
            let i := STrack.internal_track_id (track hp h) in
            if decide (i ∈ seen_track_ids) then (seen_track_ids, result)
            else ({[i]} ∪ seen_track_ids, result ++ [h]))
     ((∅ : gset Z), []) (track_list_a ++ track_list_b)).2.

Definition sub_tracks (hp : list STrack.t) (track_list_a track_list_b : list handle)
  : list handle :=
  let tracks := foldl (fun d h => dict_set (STrack.internal_track_id (track hp h)) h d)
                  [] track_list_a in
  let track_ids_b := (fun h => STrack.internal_track_id (track hp h)) <$> track_list_b in
  (foldl (fun d track_id => dict_pop track_id d) tracks track_ids_b).*2.

Definition remove_duplicate_tracks (hp : list STrack.t) (tracks_a tracks_b : list handle)
  : result (list handle * list handle) :=
  let pairwise_distance := iou_distance (tracks_of hp tracks_a) (tracks_of hp tracks_b) in
  let matching_pairs := where_lt pairwise_distance float_0_15 in
  '(duplicates_a, duplicates_b) ←
    foldM (fun '(duplicates_a, duplicates_b) '(track_index_a, track_index_b) =>
             ha ← getitem tracks_a track_index_a;
             hb ← getitem tracks_b track_index_b;
             let time_a := STrack.frame_id (track hp ha) - STrack.start_frame (track hp ha) in
             let time_b := STrack.frame_id (track hp hb) - STrack.start_frame (track hp hb) in
             if decide (time_a > time_b)
             then Ok (duplicates_a, {[track_index_b]} ∪ duplicates_b)
             else Ok ({[track_index_a]} ∪ duplicates_a, duplicates_b))
      ((∅ : gset nat), (∅ : gset nat)) matching_pairs;
  let result_a := (filter (fun p => p.1 ∉ duplicates_a) (imap pair tracks_a)).*2 in
  let result_b := (filter (fun p => p.1 ∉ duplicates_b) (imap pair tracks_b)).*2 in
  Ok (result_a, result_b).

(** *** [BYTETrack.update_with_tensors], stage by stage *)

(** Lines 213-221: the two score buckets. *)
Definition remain_ind (thresh score : Q) : bool := Qltb thresh score.
Definition ind_low (score : Q) : bool := Qltb float_0_1 score.
Definition ind_high (thresh score : Q) : bool := Qltb score thresh.
Definition ind_second (thresh score : Q) : bool :=
  ind_low score && ind_high thresh score.

(** Lines 243-247: the unconfirmed and the confirmed tracks. *)
Definition unconfirmed_of (hp : list STrack.t) (hs : list handle) : list handle :=
  filter (fun h => STrack.is_activated (track hp h) = false) hs.
Definition confirmed_of (hp : list STrack.t) (hs : list handle) : list handle :=
  filter (fun h => STrack.is_activated (track hp h) ≠ false) hs.

(** Line 250: the pool of the first association. *)
Definition strack_pool_of (st : BYTETrack) : list handle :=
  joint_tracks (heap st) (confirmed_of (heap st) (tracked_tracks st)) (lost_tracks st).

(** [STrack.multi_predict(strack_pool, self.shared_kalman)] *)
Definition multi_predict (pool : list handle) : M BYTETrack unit :=
  foldM (fun _ h => on_track h STrack.predict) tt pool.

(** Lines 260-268 and 296-304: a matched track is updated, or
    re-activated when it is not in state Tracked. *)
Definition apply_matches (pool detections : list handle) (frame : Z)
    (acc : list handle * list handle) (matches : list (nat * nat))
  : M BYTETrack (list handle * list handle) :=
  foldM (fun '(activated_starcks, refind_stracks) '(itracked, idet) =>
           h ← lift (getitem pool itracked);
           det ← lift (getitem detections idet);
           st ← gets heap;
           if decide (STrack.state (track st h) = Tracked) then
             on_track h (STrack.update (track st det) frame);;
             mret (activated_starcks ++ [h], refind_stracks)
           else
             on_track h (STrack.re_activate (track st det) frame);;
             mret (activated_starcks, refind_stracks ++ [h]))
    acc matches.

(** Lines 287-291. *)
Definition r_tracked_of (pool : list handle) (u_track : list nat)
  : M BYTETrack (list handle) :=
  foldM (fun r i =>
           h ← lift (getitem pool i);
           st ← gets heap;
           mret (if decide (STrack.state (track st h) = Tracked) then r ++ [h] else r))
    [] u_track.

(** Lines 306-310. *)
Definition mark_lost (r_tracked_stracks : list handle) (u_track : list nat)
  : M BYTETrack (list handle) :=
  foldM (fun lost_stracks it =>
           h ← lift (getitem r_tracked_stracks it);
           st ← gets heap;
           if decide (STrack.state (track st h) = Lost) then mret lost_stracks
           else on_track h (STrack.set_state Lost);; mret (lost_stracks ++ [h]))
    [] u_track.

(** Lines 320-322. *)
Definition update_unconfirmed (unconfirmed detections : list handle) (frame : Z)
    (activated_starcks : list handle) (matches : list (nat * nat))
  : M BYTETrack (list handle) :=
  foldM (fun activated_starcks '(itracked, idet) =>
           h ← lift (getitem unconfirmed itracked);
           det ← lift (getitem detections idet);
           st ← gets heap;
           on_track h (STrack.update (track st det) frame);;
           mret (activated_starcks ++ [h]))
    activated_starcks matches.

(** Lines 323-326. *)
Definition remove_unconfirmed (unconfirmed : list handle) (u_unconfirmed : list nat)
  : M BYTETrack (list handle) :=
  foldM (fun removed_stracks it =>
           h ← lift (getitem unconfirmed it);
           on_track h (STrack.set_state Removed);;
           mret (removed_stracks ++ [h]))
    [] u_unconfirmed.

(** Lines 329-334: the birth of tracks. *)
Definition init_new_stracks (detections : list handle) (frame : Z)
    (activated_starcks : list handle) (u_detection : list nat)
  : M BYTETrack (list handle) :=
  foldM (fun activated_starcks inew =>
           h ← lift (getitem detections inew);
           st ← gets id;
           if Qltb (STrack.score (track (heap st) h)) (det_thresh st)
           then mret activated_starcks
           else activate_track h frame;; mret (activated_starcks ++ [h]))
    activated_starcks u_detection.

(** Lines 336-339: the expiry of lost tracks. *)
Definition expired (st : BYTETrack) (tr : STrack.t) : bool :=
  bool_decide (frame_id st - STrack.frame_id tr > max_time_lost st).

Definition expire_step (removed_stracks : list handle) (h : handle)
  : M BYTETrack (list handle) :=
  st ← gets id;
  if expired st (track (heap st) h)
  then on_track h (STrack.set_state Removed);; mret (removed_stracks ++ [h])
  else mret removed_stracks.

Definition expire_lost (removed_stracks : list handle) : M BYTETrack (list handle) :=
  lost ← gets lost_tracks;
  foldM expire_step removed_stracks lost.

(** Lines 341-353: the lists of the tracker rebuilt. *)
Definition rebuild_lists (activated_starcks refind_stracks lost_stracks
    removed_stracks : list handle) : M BYTETrack (list handle) :=
  modify (fun st => set_tracked_tracks
    (filter (fun h => STrack.state (track (heap st) h) = Tracked) (tracked_tracks st)) st);;
  modify (fun st => set_tracked_tracks
    (joint_tracks (heap st) (tracked_tracks st) activated_starcks) st);;
  modify (fun st => set_tracked_tracks
    (joint_tracks (heap st) (tracked_tracks st) refind_stracks) st);;
  modify (fun st => set_lost_tracks
    (sub_tracks (heap st) (lost_tracks st) (tracked_tracks st)) st);;
  modify (fun st => set_lost_tracks (lost_tracks st ++ lost_stracks) st);;
  modify (fun st => set_lost_tracks
    (sub_tracks (heap st) (lost_tracks st) (removed_tracks st)) st);;
  modify (set_removed_tracks removed_stracks);;
  st ← gets id;
  '(result_a, result_b) ←
    lift (remove_duplicate_tracks (heap st) (tracked_tracks st) (lost_tracks st));
  modify (fun st => set_lost_tracks result_b (set_tracked_tracks result_a st));;
  st ← gets id;
  mret (filter (fun h => STrack.is_activated (track (heap st) h) ≠ false)
          (tracked_tracks st)).

Definition update_with_tensors (tensors : list (box * Q)) : M BYTETrack (list handle) :=
  modify (fun st => set_frame_id (frame_id st + 1) st);;
  thresh ← gets track_activation_threshold;
  let scores := tensors.*2 in
  let bboxes := tensors.*1 in
  let remain_inds := remain_ind thresh <$> scores in
  let inds_low := ind_low <$> scores in
  let inds_high := ind_high thresh <$> scores in
  let inds_second := zip_with andb inds_low inds_high in
  let dets_second := mask bboxes inds_second in
  let dets := mask bboxes remain_inds in
  let scores_keep := mask scores remain_inds in
  let scores_second := mask scores inds_second in
  detections ← mapM new_strack (zip dets scores_keep);
  st ← gets id;
  let unconfirmed := unconfirmed_of (heap st) (tracked_tracks st) in
  let strack_pool := strack_pool_of st in
  multi_predict strack_pool;;
  hp ← gets heap;
  let dists := iou_distance (tracks_of hp strack_pool) (tracks_of hp detections) in
  let dists := fuse_score dists (tracks_of hp detections) in
  frame ← gets frame_id;
  let '(matches, u_track, u_detection) :=
    linear_assignment dists (minimum_matching_threshold st) in
  '(activated_starcks, refind_stracks) ←
    apply_matches strack_pool detections frame ([], []) matches;
  detections_second ← mapM new_strack (zip dets_second scores_second);
  r_tracked_stracks ← r_tracked_of strack_pool u_track;
  hp ← gets heap;
  let dists := iou_distance (tracks_of hp r_tracked_stracks)
                 (tracks_of hp detections_second) in
  let '(matches, u_track, u_detection_second) := linear_assignment dists float_0_5 in
  '(activated_starcks, refind_stracks) ←
    apply_matches r_tracked_stracks detections_second frame
      (activated_starcks, refind_stracks) matches;
  lost_stracks ← mark_lost r_tracked_stracks u_track;
  detections ← lift (take_indices detections u_detection);
  hp ← gets heap;
  let dists := iou_distance (tracks_of hp unconfirmed) (tracks_of hp detections) in
  let dists := fuse_score dists (tracks_of hp detections) in
  let '(matches, u_unconfirmed, u_detection) := linear_assignment dists float_0_7 in
  activated_starcks ←
    update_unconfirmed unconfirmed detections frame activated_starcks matches;
  removed_stracks ← remove_unconfirmed unconfirmed u_unconfirmed;
  activated_starcks ← init_new_stracks detections frame activated_starcks u_detection;
  removed_stracks ← expire_lost removed_stracks;
  rebuild_lists activated_starcks refind_stracks lost_stracks removed_stracks.

(** [BYTETrack.single_cls_update]; [np.hstack] raises [ValueError] when
    the two arrays differ in length. *)
Definition assign_ids (hp : list STrack.t) (tracks : list handle) (n : nat)
    (matches : list (nat * nat)) : result (list Z) :=
  foldM (fun track_id_array '(i_detection, i_track) =>
           h ← getitem tracks i_track;
           setitem track_id_array i_detection (STrack.external_track_id (track hp h)))
    (replicate n (-1)) matches.

Definition single_cls_update (xyxy_array : list box) (conf_array : list Q)
  : M BYTETrack (list Z) :=
  if decide (length xyxy_array * length conf_array = 0)%nat then mret []
  else if decide (length xyxy_array ≠ length conf_array) then lift (Raise ValueError)
  else
    let tensors := zip xyxy_array conf_array in
    tracks ← update_with_tensors tensors;
    if decide (0 < length tracks)%nat then
      hp ← gets heap;
      let detection_bounding_boxes := asarray tensors.*1 in
      let track_bounding_boxes := asarray (STrack.tlbr <$> tracks_of hp tracks) in
      let ious := box_iou_batch detection_bounding_boxes track_bounding_boxes in
      let iou_costs := one_minus ious in
      let '(matches, _, _) := linear_assignment (matrix_of iou_costs) float_0_5 in
      lift (assign_ids hp tracks (length conf_array) matches)
    else mret (replicate (length conf_array) (-1)).

(** [BYTETrack.update]: the body of the loop over the classes, and the
    method. *)
Definition update_class (cls2boxes : gmap Z (list box * list Q * list nat))
    (current_frame_id : Z) (acc : list Z * list nat) (cls_id : Z)
  : M BYTETrack (list Z * list nat) :=
  let '(track_id_array, orig_order) := acc in
  '(cls_xyxy_array, cls_conf_array, cls_box_order_list) ← lift (dict_get cls2boxes cls_id);
  if decide (length cls_xyxy_array < 1)%nat then mret (track_id_array, orig_order)
  else
    let orig_order := orig_order ++ cls_box_order_list in
    c2t ← gets cls2tracked_tracks;
    tracked ← lift (dict_get c2t cls_id);
    modify (set_tracked_tracks tracked);;
    modify (set_frame_id current_frame_id);;
    cls_track_id_array ← single_cls_update cls_xyxy_array cls_conf_array;
    modify (fun st => set_cls2tracked_tracks
              (<[cls_id := tracked_tracks st]> (cls2tracked_tracks st)) st);;
    mret (track_id_array ++ cls_track_id_array, orig_order).

Definition update (xyxy_array : list box) (conf_array : list Q) (cls_array : list Z)
  : M BYTETrack (list Z) :=
  n ← gets n_classes;
  cls2boxes ← lift (_cls_group n xyxy_array conf_array cls_array);
  current_frame_id ← gets frame_id;
  '(track_id_array, orig_order) ←
    foldM (update_class cls2boxes current_frame_id) ([], []) (range n);
  modify (set_frame_id (current_frame_id + 1));;
  lift (take_indices track_id_array (argsort orig_order)).

(** The calls of [single_cls_update] an update makes: the loop of [update]
    with, in place of the two accumulated arrays, the record of each call,
    namely the class, the three arrays of the class and the ids returned. *)
Record cls_call := mk_call {
  call_cls : Z;
  call_xyxy : list box;
  call_conf : list Q;
  call_order : list nat;
  call_ids : list Z
}.

Definition update_class_traced (cls2boxes : gmap Z (list box * list Q * list nat))
    (current_frame_id : Z) (calls : list cls_call) (cls_id : Z)
  : M BYTETrack (list cls_call) :=
  '(cls_xyxy_array, cls_conf_array, cls_box_order_list) ← lift (dict_get cls2boxes cls_id);
  if decide (length cls_xyxy_array < 1)%nat then mret calls
  else
    c2t ← gets cls2tracked_tracks;
    tracked ← lift (dict_get c2t cls_id);
    modify (set_tracked_tracks tracked);;
    modify (set_frame_id current_frame_id);;
    cls_track_id_array ← single_cls_update cls_xyxy_array cls_conf_array;
    modify (fun st => set_cls2tracked_tracks
              (<[cls_id := tracked_tracks st]> (cls2tracked_tracks st)) st);;
    mret (calls ++ [mk_call cls_id cls_xyxy_array cls_conf_array cls_box_order_list
                      cls_track_id_array]).

Definition update_calls (xyxy_array : list box) (conf_array : list Q) (cls_array : list Z)
  : M BYTETrack (list cls_call) :=
  n ← gets n_classes;
  cls2boxes ← lift (_cls_group n xyxy_array conf_array cls_array);
  current_frame_id ← gets frame_id;
  foldM (update_class_traced cls2boxes current_frame_id) [] (range n).

(** Updates made one after the other on a tracker, the results in order;
    an update that raises leaves the tracker as the exception left it. *)
Fixpoint play (frames : list (list box * list Q * list Z)) (st : BYTETrack)
  : list (result (list Z)) * BYTETrack :=
  match frames with
  | [] => ([], st)
  | (xyxy, conf, cls) :: frames' =>
      let '(r, st') := update xyxy conf cls st in
      let '(rs, st'') := play frames' st' in
      (r :: rs, st'')
  end.



(** The per-class partition has a list for every class: what the
    constructor establishes and [update] relies on. *)
Definition partition_ok (st : BYTETrack) : Prop :=
  forall c, 0 <= c < n_classes st -> is_Some (cls2tracked_tracks st !! c).

Definition classes_are (n : Z) (st : BYTETrack) : Prop :=
  n_classes st = n /\ partition_ok st.

End Tracker.

(** ** Reference collaborators

    Concrete collaborators on which the tracker can be run.  The theorems
    below hold for every filter and every matcher; these are the instance
    at which they are exercised on concrete frames. *)

Module Reference.

(** Modelled from the spec: the filter interface of section 4.3 at its
    simplest member, a filter of zero velocity whose correction adopts
    the measurement (the filter itself, kalman_filter.py, is missing). *)
Definition filter : KalmanFilter :=
  {| kstate := tlwh;
     kf_initiate := fun m => m;
     kf_predict := fun k => k;
     kf_update := fun _ m => m;
     kf_tlbr := @STrack.tlwh_to_tlbr |}.

Definition cost_at (m : matrix) (i j : nat) : Q :=
  default 0%Q (entries m !! i ≫= fun row => row !! j).

(** Modelled from the spec (section 4.4, [iou_distance]): cost = 1 - IoU
    of the tracks' current boxes against the detections' boxes
    (matching.py is missing). *)
Definition iou_distance (tracks detections : list (@STrack.t filter)) : matrix :=
  matrix_of (one_minus
    (box_iou_batch (asarray (STrack.tlbr <$> tracks)) (asarray (STrack.tlbr <$> detections)))).

(** Modelled from the spec (section 4.4, [fuse_score]): in column j the
    similarity [1 - cost] is multiplied by the score of detection j and
    the cost is one minus the product. *)
Definition fuse_score (cost : matrix) (detections : list (@STrack.t filter)) : matrix :=
  {| n_rows := n_rows cost; n_cols := n_cols cost;
     entries := (fun row : list Q =>
                   zip_with (fun c (d : @STrack.t filter) =>
                               (1 - (1 - c) * STrack.score d)%Q) row detections)
                <$> entries cost |}.

(** The assignments of the rows from [i] on to distinct columns of
    [cols], a row being matched or left out. *)
Fixpoint matchings (n i : nat) (cols : list nat) : list (list (nat * nat)) :=
  match n with
  | O => [[]]
  | S n' =>
      matchings n' (S i) cols ++
      mjoin ((fun c => cons (i, c) <$>
                         matchings n' (S i) (List.filter (fun c' => negb (c' =? c)%nat) cols))
               <$> cols)
  end.

Definition total_cost (m : matrix) (a : list (nat * nat)) : Q :=
  foldr (fun p acc => (cost_at m p.1 p.2 + acc)%Q) 0%Q a.

Definition cheapest (m : matrix) (candidates : list (list (nat * nat)))
  : list (nat * nat) :=
  foldl (fun best a => if Qltb (total_cost m a) (total_cost m best) then a else best)
    (hd [] candidates) (tl candidates).

(** Modelled from the spec (section 4.4, [linear_assignment]): a
    cost-minimal assignment of as many rows as the shape allows, found by
    enumeration; pairs of cost at or above the threshold are rejected and
    their row and column reported unmatched. *)
Definition linear_assignment (cost : matrix) (thresh : Q)
  : list (nat * nat) * list nat * list nat :=
  let full := List.filter (fun a => (length a =? Nat.min (n_rows cost) (n_cols cost))%nat)
                (matchings (n_rows cost) 0 (seq 0 (n_cols cost))) in
  let matches := List.filter (fun p => Qltb (cost_at cost p.1 p.2) thresh)
                   (cheapest cost full) in
  (matches,
   List.filter (fun i => negb (existsb (Nat.eqb i) matches.*1)) (seq 0 (n_rows cost)),
   List.filter (fun j => negb (existsb (Nat.eqb j) matches.*2)) (seq 0 (n_cols cost))).

Definition matching : @Matching filter :=
  @Build_Matching filter iou_distance fuse_score linear_assignment float64_add.

Definition tracker : Type := @BYTETrack filter.

Definition update : list box -> list Q -> list Z -> M tracker (list Z) :=
  @update filter matching.

Definition play : list (list box * list Q * list Z) -> tracker ->
    list (result (list Z)) * tracker :=
  @play filter matching.

End Reference.


(** ** The detections of a class

    What [_cls_group] is to compute for class [c]: the detections of the
    zipped input whose class is [c], each with its position in the input,
    in input order. *)
Definition class_rows (c : Z) (order : nat) (dets : list (box * Q * Z))
  : list (nat * (box * Q * Z)) :=
  filter (fun p => p.2.2 = c) (zip (seq order (length dets)) dets).

Definition add_rows (g : list box * list Q * list nat) (rows : list (nat * (box * Q * Z)))
  : list box * list Q * list nat :=
  (g.1.1 ++ ((fun p => p.2.1.1) <$> rows),
   g.1.2 ++ ((fun p => p.2.1.2) <$> rows),
   g.2 ++ rows.*1).

(** The two arrays [update] accumulates, from the record of the calls. *)
Definition flat (calls : list cls_call) : list Z * list nat :=
  (concat (call_ids <$> calls), concat (call_order <$> calls)).

(** A call recorded for a class was made on the detections of that class,
    and returned one id for each. *)
Definition call_ok (dets : list (box * Q * Z)) (call : cls_call) : Prop :=
  let rows := class_rows (call_cls call) 0 dets in
  rows <> [] /\
  call_xyxy call = (fun p => p.2.1.1) <$> rows /\
  call_conf call = (fun p => p.2.1.2) <$> rows /\
  call_order call = rows.*1 /\
  length (call_ids call) = length rows.

(** ** Frames used in the examples *)

Definition box_a : box := mk_box 0 0 10 10.
Definition box_b : box := mk_box 100 100 110 110.
Definition box_c : box := mk_box 50 50 60 60.

Definition frame (xyxy : list box) (conf : list Q) (cls : list Z)
  : list box * list Q * list Z := (xyxy, conf, cls).

(** A tracker of [n] classes with the default arguments. *)
Definition fresh (n : Z) : Reference.tracker :=
  match @init_default Reference.filter Reference.matching n with
  | Ok st => st
  | Raise _ => @mkBYTETrack Reference.filter 0 0 0 0 0 0 [] [] []
                 (IdCounter.mk 0 0) (IdCounter.mk 0 0) 0 ∅ []
  end.

(** The float32 nearest to 1.1, and a box of that side as a float32
    array and as the float64 array of the same numbers
    ([boxes.astype(np.float64)]). *)
Definition float32_1_1 : spec_float := S754_finite false 9227469 (-23).

Definition unit_row (side : spec_float) : fbox :=
  mk_fbox (S754_zero false) (S754_zero false) side side.

Definition unit_box32 : box_array := mk_box_array float32 [unit_row float32_1_1].
Definition unit_box64 : box_array :=
  mk_box_array float64 [unit_row (cast float64 float32_1_1)].

(** A box of side 2^-80, whose area 2^-160 is below every positive
    float32, in the two dtypes. *)
Definition float32_tiny : spec_float := S754_finite false 8388608 (-103).

Definition tiny_box32 : box_array := mk_box_array float32 [unit_row float32_tiny].
Definition tiny_box64 : box_array :=
  mk_box_array float64 [unit_row (cast float64 float32_tiny)].

(** The float 1.0. *)
Definition float_1 : spec_float := S754_finite false 4503599627370496 (-52).

(** A tracker of one class for a video of 11 frames per second with a
    lost-track buffer of 150, and 56 frames for it: a detection at
    [box_a], then detections at [box_b] only. *)
Definition tracker_11fps : Reference.tracker :=
  match @init Reference.filter Reference.matching 1 (1 # 4) 150
          (3602879701896397 # 4503599627370496) 11 1 with
  | Ok st => st
  | Raise _ => fresh 1
  end.

Definition frames_11fps : list (list box * list Q * list Z) :=
  frame [box_a] [9 # 10] [0] :: replicate 55 (frame [box_b] [9 # 10] [0]).

(** A tracker of two classes after a detection of class 0 at [box_a] and
    one of class 0 at [box_b]: the track born at [box_a] is lost. *)
Definition st_lost : Reference.tracker :=
  (Reference.play [frame [box_a] [9 # 10] [0]; frame [box_b] [9 # 10] [0]] (fresh 2)).2.

(** * Properties *)

(** ** Floats as rationals *)

Lemma Qltb_lt x y : Qltb x y = true <-> (x < y)%Q.
Proof.
  unfold Qltb. rewrite negb_true_iff, <- not_true_iff_false, Qle_bool_iff.
  split; [apply Qnot_le_lt | apply Qlt_not_le].
Qed.

Lemma Qltb_ge x y : Qltb x y = false <-> (y <= x)%Q.
Proof.
  unfold Qltb. rewrite negb_false_iff, Qle_bool_iff. reflexivity.
Qed.

Lemma Qltb_irrefl x : Qltb x x = false.
Proof. apply Qltb_ge, Qle_refl. Qed.

(** ** Floats *)

(** The float literals of the model are the floats they are said to be:
    30.0 and 1.0 are the doubles of the integers, 0.1 is the double
    nearest to 1/10, the side 1.1 is the float32 nearest to 11/10, and
    the float64 copy of a float32 number is that number. *)
Lemma float_literals :
  float_of_int 30 = Ok float_30 /\
  float_of_int 1 = Ok float_1 /\
  (value (float64_of_Q (1 # 10)) == float_0_1)%Q /\
  fdiv float32 (S754_finite false 11 0) (S754_finite false 10 0) = float32_1_1 /\
  (value (cast float64 float32_1_1) == value float32_1_1)%Q /\
  (value (cast float64 float32_tiny) == value float32_tiny)%Q /\
  (value float32_tiny == Qpower 2 (-80))%Q.
Proof. repeat split; vm_compute; reflexivity. Qed.

(** [track_activation_threshold + 0.1] at the default threshold is the
    double nearest to 0.35, which the exact sum of 0.25 and the double 0.1
    exceeds. *)
Lemma det_thresh_default :
  (float64_add (1 # 4) float_0_1 == value (float64_of_Q (7 # 20)))%Q /\
  (float64_add (1 # 4) float_0_1 < (1 # 4) + float_0_1)%Q.
Proof. split; vm_compute; reflexivity. Qed.

(** ** box_iou_batch *)

Lemma nan_to_num_finite (d : dtype) (x : spec_float) : is_finite (nan_to_num d x) = true.
Proof. destruct d, x as [s|[|]| |s m e]; reflexivity. Qed.

Lemma box_iou_batch_shape (boxes_true boxes_detection : box_array) :
  let ious := box_iou_batch boxes_true boxes_detection in
  arr_rows ious = length (rows_of boxes_true) /\
  arr_cols ious = length (rows_of boxes_detection) /\
  length (arr_entries ious) = length (rows_of boxes_true) /\
  Forall (fun row => length row = length (rows_of boxes_detection)) (arr_entries ious).
Proof.
  cbv zeta. unfold box_iou_batch; simpl.
  split; [reflexivity|]. split; [reflexivity|]. split; [apply length_fmap|].
  apply Forall_fmap, Forall_forall. intros a _. simpl. apply length_fmap.
Qed.

(** C7, the code on arrays of two dtypes.  For N boxes and M boxes
    [box_iou_batch] returns an array of shape N x M of finite floats, in
    the promoted dtype.  The entries are not all in [0, 1], and a division
    by zero does not always yield 0: the area of a float32 box is rounded
    in float32, the intersection with a float64 box in float64.  For the
    box of side 1.1 (float32) against the same box as a float64 array the
    entry is 1 + 53243397 * 2^-52, above 1; for the box of side 2^-80 the
    float32 area underflows to 0, the union is 0 under an intersection of
    2^-160, the quotient is +inf and [np.nan_to_num] makes it the largest
    double.  The same boxes in one dtype give 1, and 0 for the 0/0. *)
Theorem box_iou_batch_mixed_precision :
  (forall boxes_true boxes_detection : box_array,
     let ious := box_iou_batch boxes_true boxes_detection in
     arr_dtype ious = promote (dtype_of boxes_true) (dtype_of boxes_detection) /\
     arr_rows ious = length (rows_of boxes_true) /\
     arr_cols ious = length (rows_of boxes_detection) /\
     length (arr_entries ious) = length (rows_of boxes_true) /\
     Forall (fun row => length row = length (rows_of boxes_detection)) (arr_entries ious) /\
     Forall (Forall (fun e => is_finite e = true)) (arr_entries ious)) /\
  (arr_entries (box_iou_batch unit_box32 unit_box64) =
     [[S754_finite false 4503599680613893 (-52)]] /\
   (1 < value (S754_finite false 4503599680613893 (-52)))%Q /\
   arr_entries (box_iou_batch unit_box64 unit_box64) = [[float_1]] /\
   arr_entries (box_iou_batch unit_box32 unit_box32) = [[cast float32 float_1]]) /\
  (iou_raw float32 float64 (unit_row float32_tiny) (unit_row (cast float64 float32_tiny)) =
     S754_infinity false /\
   arr_entries (box_iou_batch tiny_box32 tiny_box64) = [[max_float float64]] /\
   (value (max_float float64) == inject_Z (2 ^ 1024 - 2 ^ 971))%Q /\
   arr_entries (box_iou_batch tiny_box32 tiny_box32) = [[S754_zero false]]).
Proof.
  split; [|split].
  - intros boxes_true boxes_detection. cbv zeta.
    destruct (box_iou_batch_shape boxes_true boxes_detection) as (H1 & H2 & H3 & H4).
    split; [reflexivity|]. split; [exact H1|]. split; [exact H2|].
    split; [exact H3|]. split; [exact H4|].
    unfold box_iou_batch. cbn [arr_entries].
    apply Forall_fmap, Forall_forall. intros a _. cbn beta.
    apply Forall_fmap, Forall_forall. intros b _. cbn beta.
    apply nan_to_num_finite.
  - repeat split; vm_compute; reflexivity.
  - repeat split; vm_compute; reflexivity.
Qed.

(** ** IdCounter *)

Lemma IdCounter_init_spec (s : Z) :
  IdCounter.init s =
    if decide (s <= IdCounter.NO_ID) then Raise ValueError else Ok (IdCounter.mk s s).
Proof.
  unfold IdCounter.init, IdCounter.reset. simpl.
  destruct (Z.leb_spec s IdCounter.NO_ID); case_decide; try lia; reflexivity.
Qed.


(** ** Construction *)

Lemma range_nonpos (n : Z) : n <= 0 -> range n = [].
Proof. intros H. unfold range. replace (Z.to_nat n) with 0%nat by lia. reflexivity. Qed.

Lemma elem_of_range (n c : Z) : c ∈ range n <-> 0 <= c < n.
Proof.
  unfold range. rewrite list_elem_of_fmap. split.
  - intros (k & -> & Hk). apply elem_of_seq in Hk. lia.
  - intros H. exists (Z.to_nat c). split; [lia|]. apply elem_of_seq. lia.
Qed.

Lemma window_ok_upto_240 :
  forallb (fun f => forallb (window_ok f) (range 241)) (range 241) = true.
Proof. vm_compute. reflexivity. Qed.

Lemma max_time_lost_of_bounds (frame_rate lost_track_buffer : Z) :
  0 <= frame_rate <= 240 -> 0 <= lost_track_buffer <= 240 ->
  window_ok frame_rate lost_track_buffer = true.
Proof.
  intros Hf Hl. pose proof window_ok_upto_240 as H.
  rewrite forallb_forall in H.
  specialize (H frame_rate). rewrite <- list_elem_of_In, elem_of_range in H.
  specialize (H ltac:(lia)). rewrite forallb_forall in H.
  apply H. rewrite <- list_elem_of_In, elem_of_range. lia.
Qed.

Lemma max_time_lost_of_returns (frame_rate lost_track_buffer : Z) :
  0 <= frame_rate <= 240 -> 0 <= lost_track_buffer <= 240 ->
  exists w, max_time_lost_of frame_rate lost_track_buffer = Ok w.
Proof.
  intros Hf Hl. pose proof (max_time_lost_of_bounds _ _ Hf Hl) as H.
  unfold window_ok in H. cbv zeta in H.
  destruct (max_time_lost_of frame_rate lost_track_buffer) as [w|e]; [eauto | discriminate].
Qed.

Section Construction.
Context `{MA : Matching}.

Lemma init_run n tat ltb mmt fr mcf :
  init n tat ltb mmt fr mcf =
    match max_time_lost_of fr ltb with
    | Raise e => Raise e
    | Ok w =>
        Ok {| track_activation_threshold := tat;
              minimum_matching_threshold := mmt;
              frame_id := 0;
              det_thresh := float_add tat float_0_1;
              max_time_lost := w;
              minimum_consecutive_frames := mcf;
              tracked_tracks := [];
              lost_tracks := [];
              removed_tracks := [];
              internal_id_counter := IdCounter.mk 0 0;
              external_id_counter := IdCounter.mk 1 1;
              n_classes := n;
              cls2tracked_tracks := list_to_map ((fun i => (i, [])) <$> range n);
              heap := [] |}
    end.
Proof. unfold init. destruct (max_time_lost_of fr ltb); reflexivity. Qed.

Lemma init_Ok n tat ltb mmt fr mcf w :
  max_time_lost_of fr ltb = Ok w ->
  init n tat ltb mmt fr mcf =
    Ok {| track_activation_threshold := tat;
          minimum_matching_threshold := mmt;
          frame_id := 0;
          det_thresh := float_add tat float_0_1;
          max_time_lost := w;
          minimum_consecutive_frames := mcf;
          tracked_tracks := [];
          lost_tracks := [];
          removed_tracks := [];
          internal_id_counter := IdCounter.mk 0 0;
          external_id_counter := IdCounter.mk 1 1;
          n_classes := n;
          cls2tracked_tracks := list_to_map ((fun i => (i, [])) <$> range n);
          heap := [] |}.
Proof. intros Hw. rewrite init_run, Hw. reflexivity. Qed.

Lemma init_inv n tat ltb mmt fr mcf st :
  init n tat ltb mmt fr mcf = Ok st ->
  max_time_lost_of fr ltb = Ok (max_time_lost st) /\
  n_classes st = n /\
  cls2tracked_tracks st = list_to_map ((fun i => (i, [])) <$> range n) /\
  tracked_tracks st = [] /\ lost_tracks st = [] /\ removed_tracks st = [] /\
  heap st = [] /\ frame_id st = 0 /\
  internal_id_counter st = IdCounter.mk 0 0 /\
  external_id_counter st = IdCounter.mk 1 1.
Proof.
  rewrite init_run. destruct (max_time_lost_of fr ltb) as [w|e]; [|discriminate].
  intros [= <-]. simpl. repeat split; reflexivity.
Qed.

Lemma dom_class_map {V} (v : V) (n : Z) :
  dom (list_to_map ((fun i => (i, v)) <$> range n) : gmap Z V) = list_to_set (range n).
Proof.
  rewrite dom_list_to_map_L. f_equal.
  rewrite <- list_fmap_compose. rewrite <- (list_fmap_id (range n)) at 2.
  apply list_fmap_ext. reflexivity.
Qed.

(** C9 (as amended).  An identity allocator refuses a start id at or
    below the sentinel -1 and otherwise starts at that id, unclamped;
    the tracker's constructor checks nothing: whatever [n_classes] is, it
    returns a tracker whenever the float arithmetic of the lost-track
    window returns a number (it raises only what that arithmetic raises,
    for a frame rate or a buffer beyond the range of floats), so for
    every frame rate and buffer from 0 to 240; the per-class
    partition of the tracker has the keys [range(n_classes)], none when
    [n_classes < 1]. *)
Theorem construction_checks :
  (forall s, IdCounter.init s =
     if decide (s <= -1) then Raise ValueError else Ok (IdCounter.mk s s)) /\
  (forall n tat ltb mmt fr mcf,
     (forall w, max_time_lost_of fr ltb = Ok w ->
        exists st, init n tat ltb mmt fr mcf = Ok st /\ n_classes st = n /\
          dom (cls2tracked_tracks st) = list_to_set (range n) /\
          range (Z.min n 0) = []) /\
     (forall e, max_time_lost_of fr ltb = Raise e ->
        init n tat ltb mmt fr mcf = Raise e) /\
     (0 <= fr <= 240 -> 0 <= ltb <= 240 ->
        exists st, init n tat ltb mmt fr mcf = Ok st /\ n_classes st = n /\
          dom (cls2tracked_tracks st) = list_to_set (range n) /\
          range (Z.min n 0) = [])).
Proof.
  split; [exact IdCounter_init_spec|].
  intros n tat ltb mmt fr mcf.
  assert (Hok : forall w, max_time_lost_of fr ltb = Ok w ->
            exists st, init n tat ltb mmt fr mcf = Ok st /\ n_classes st = n /\
              dom (cls2tracked_tracks st) = list_to_set (range n) /\
              range (Z.min n 0) = []).
  { intros w Hw. eexists. split; [apply (init_Ok _ _ _ _ _ _ w Hw)|]. simpl.
    split; [reflexivity|]. split; [apply dom_class_map|].
    apply range_nonpos. lia. }
  split; [exact Hok|]. split.
  - intros e He. rewrite init_run, He. reflexivity.
  - intros Hf Hl. destruct (max_time_lost_of_returns fr ltb Hf Hl) as [w Hw].
    exact (Hok w Hw).
Qed.

End Construction.

(** C9, refuted as stated: a tracker of zero classes, and one of -3
    classes, is constructed without any error. *)
Lemma construction_accepts_no_classes :
  (exists st, @init_default Reference.filter Reference.matching 0 = Ok st /\
     n_classes st = 0 /\ cls2tracked_tracks st = ∅) /\
  (exists st, @init_default Reference.filter Reference.matching (-3) = Ok st /\
     n_classes st = -3 /\ cls2tracked_tracks st = ∅).
Proof. split; eexists; (split; [vm_compute; reflexivity|]); split; reflexivity. Qed.

(** ** The lost-track window *)

Section Expiry.
Context `{MA : Matching}.

Lemma expire_lost_unfold r st :
  expire_lost r st = foldM expire_step r (lost_tracks st) st.
Proof. reflexivity. Qed.

Lemma track_alter (f : STrack.t -> STrack.t) (hp : list STrack.t) (h h' : handle) :
  track (alter f h hp) h' =
    if decide (h' = h /\ (h < length hp)%nat) then f (track hp h') else track hp h'.
Proof.
  unfold track. rewrite !list_lookup_total_alt, list_lookup_alter.
  destruct (decide (h' = h /\ (h < length hp)%nat)) as [[-> Hlt]|Hd].
  - destruct (lookup_lt_is_Some_2 hp h Hlt) as [x Hx].
    rewrite decide_True, Hx by reflexivity. reflexivity.
  - destruct (decide (h = h')) as [->|He]; [|reflexivity].
    assert (length hp <= h')%nat as Hge by lia.
    rewrite (lookup_ge_None_2 hp h' Hge). reflexivity.
Qed.

Lemma expire_loop_spec (lost : list handle) :
  forall (r : list handle) (st : BYTETrack),
  exists hp',
    foldM expire_step r lost st =
      (Ok (r ++ filter (fun h => expired st (track (heap st) h) = true) lost),
       set_heap hp' st) /\
    length hp' = length (heap st) /\
    forall h, track hp' h =
      if decide (h ∈ lost /\ (h < length (heap st))%nat /\
                 expired st (track (heap st) h) = true)
      then STrack.set_state Removed (track (heap st) h)
      else track (heap st) h.
Proof.
  induction lost as [|h0 lost IH]; intros r st.
  - exists (heap st). simpl. unfold mret, M_ret. rewrite app_nil_r.
    split; [destruct st; reflexivity|]. split; reflexivity.
  - cbn [foldM]. unfold mbind, M_bind, expire_step at 1.
    unfold mbind, M_bind, gets, id at 1 2. cbn beta iota.
    destruct (expired st (track (heap st) h0)) eqn:E.
    + unfold on_track, modify, mret, M_ret. cbn beta iota.
      set (st1 := set_heap (alter (STrack.set_state Removed) h0 (heap st)) st).
      destruct (IH (r ++ [h0]) st1) as (hp' & Hrun & Hlen & Htr).
      assert (Hexp : forall h, expired st1 (track (heap st1) h) = expired st (track (heap st) h)).
      { intros h. subst st1. simpl. rewrite track_alter.
        case_decide; reflexivity. }
      exists hp'. split; [|split].
      * refine (eq_trans Hrun _). f_equal.
        f_equal. rewrite filter_cons, decide_True by exact E.
        rewrite <- app_assoc. simpl. f_equal. f_equal.
        apply list_filter_iff. intros h. rewrite Hexp. reflexivity.
      * rewrite Hlen. subst st1. simpl. apply length_alter.
      * intros h. rewrite Htr. subst st1. simpl heap. rewrite length_alter, track_alter.
        pose proof (Hexp h) as Hh. simpl heap in Hh. rewrite track_alter in Hh.
        rewrite Hh. clear Hh.
        destruct (decide (h = h0 /\ (h0 < length (heap st))%nat)) as [[-> Hlt]|Hn].
        -- rewrite (decide_True (P := h0 ∈ h0 :: lost /\ _))
             by (split; [set_solver | tauto]).
           case_decide; destruct (track (heap st) h0); reflexivity.
        -- case_decide as H1; case_decide as H2; try reflexivity; exfalso.
           ++ apply H2. set_solver.
           ++ destruct H2 as (Hin & Hlt & Hex).
              apply elem_of_cons in Hin as [->|Hin]; [apply Hn | apply H1]; tauto.
    + destruct (IH r st) as (hp' & Hrun & Hlen & Htr).
      unfold mret, M_ret. cbn beta iota.
      exists hp'. split; [|split; [exact Hlen|]].
      * refine (eq_trans Hrun _). f_equal. f_equal.
        rewrite filter_cons, decide_False by (rewrite E; discriminate). reflexivity.
      * intros h. rewrite Htr.
        repeat case_decide; try reflexivity; exfalso.
        -- apply H0. set_solver.
        -- destruct H0 as (Hin & Hlt & Hex).
           apply H. split; [|tauto].
           apply elem_of_cons in Hin as [->|]; [congruence|assumption].
Qed.

End Expiry.

Section Window.
Context `{MA : Matching}.

Lemma expire_lost_rule (st : BYTETrack) (r : list handle) (h : handle) :
  h ∈ lost_tracks st -> (h < length (heap st))%nat ->
  STrack.state (track (heap st) h) = Lost ->
  exists r' st', expire_lost r st = (Ok r', st') /\
    (STrack.state (track (heap st') h) = Removed <->
       frame_id st - STrack.frame_id (track (heap st) h) > max_time_lost st) /\
    (h ∈ r' <->
       h ∈ r \/ frame_id st - STrack.frame_id (track (heap st) h) > max_time_lost st) /\
    (track (heap st') h = track (heap st) h \/
     frame_id st - STrack.frame_id (track (heap st) h) > max_time_lost st).
Proof.
  intros Hin Hlt Hst.
  destruct (expire_loop_spec (lost_tracks st) r st) as (hp' & Hrun & Hlen & Htr).
  exists (r ++ filter (fun h => expired st (track (heap st) h) = true) (lost_tracks st)),
    (set_heap hp' st).
  split; [exact Hrun|]. simpl heap. rewrite Htr.
  assert (Hexp : expired st (track (heap st) h) = true <->
                 frame_id st - STrack.frame_id (track (heap st) h) > max_time_lost st).
  { unfold expired. apply bool_decide_eq_true. }
  split; [|split].
  + destruct (decide (h ∈ lost_tracks st /\ (h < length (heap st))%nat /\
                      expired st (track (heap st) h) = true)) as [(_ & _ & He)|Hn].
    * split; [intros _; apply Hexp, He | intros _; reflexivity].
    * split; [rewrite Hst; discriminate | intros He; exfalso; apply Hn; tauto].
  + rewrite elem_of_app, list_elem_of_filter. tauto.
  + destruct (decide (h ∈ lost_tracks st /\ (h < length (heap st))%nat /\
                      expired st (track (heap st) h) = true)) as [(_ & _ & He)|Hn].
    * right. apply Hexp, He.
    * left. reflexivity.
Qed.

Lemma window_at_11fps n tat mmt mcf :
  exists st, init n tat 150 mmt 11 mcf = Ok st /\ max_time_lost st = 54.
Proof.
  eexists. split; [apply (init_Ok n tat 150 mmt 11 mcf 54); vm_compute; reflexivity|].
  reflexivity.
Qed.

End Window.

(** C6, the code at 11 frames per second.  With a lost-track buffer of
    150 and a frame rate of 11 the constructor sets a window of 54 frames:
    [11 / 30.0] is rounded below 11/30 and the product with 150 below 55,
    which [int] truncates.  The claimed window is 55, and so is
    [150 * 11 / 30] under any rounding, being an integer.  For frame
    rates and buffers up to 240 the window is the floor of the quotient
    wherever 30 divides the frame rate or does not divide the product,
    and never more than one below it.  In the expiry pass the rule is the
    claimed one on the window the tracker holds: a track of the lost list
    in state Lost becomes Removed exactly when
    [frame_id - track.frame_id > max_time_lost].  So the track of the
    first of 56 frames, last seen in frame 1 and lost from frame 2 on, is
    still Lost after frame 55 and is Removed in frame 56, 55 frames after
    it was seen: an age that does not exceed the claimed window. *)
Theorem lost_window_one_short :
  (forall (KF : KalmanFilter) (MA : @Matching KF) n tat mmt mcf,
     exists st, init n tat 150 mmt 11 mcf = Ok st /\ max_time_lost st = 54) /\
  (150 * 11 = 30 * 55 /\ max_time_lost_spec 150 11 = 55) /\
  (forall F L, 0 <= F <= 240 -> 0 <= L <= 240 ->
     exists w, max_time_lost_of F L = Ok w /\
       (w = F * L / 30 \/
        (F * L mod 30 = 0 /\ F mod 30 <> 0 /\ w = F * L / 30 - 1))) /\
  (forall (KF : KalmanFilter) (MA : @Matching KF) (st : BYTETrack)
          (r : list handle) (h : handle),
     h ∈ lost_tracks st -> (h < length (heap st))%nat ->
     STrack.state (track (heap st) h) = Lost ->
     exists r' st', expire_lost r st = (Ok r', st') /\
       (STrack.state (track (heap st') h) = Removed <->
          frame_id st - STrack.frame_id (track (heap st) h) > max_time_lost st) /\
       (h ∈ r' <->
          h ∈ r \/ frame_id st - STrack.frame_id (track (heap st) h) > max_time_lost st) /\
       (track (heap st') h = track (heap st) h \/
        frame_id st - STrack.frame_id (track (heap st) h) > max_time_lost st)) /\
  (let st55 := (Reference.play (take 55 frames_11fps) tracker_11fps).2 in
   let st56 := (Reference.play frames_11fps tracker_11fps).2 in
   max_time_lost tracker_11fps = 54 /\
   (frame_id st55 = 55 /\ lost_tracks st55 = [0%nat] /\
    STrack.state (track (heap st55) 0%nat) = Lost /\
    STrack.frame_id (track (heap st55) 0%nat) = 1) /\
   (frame_id st56 = 56 /\ removed_tracks st56 = [0%nat] /\
    STrack.state (track (heap st56) 0%nat) = Removed /\
    STrack.frame_id (track (heap st56) 0%nat) = 1 /\
    ~ frame_id st56 - STrack.frame_id (track (heap st56) 0%nat) >
        max_time_lost_spec 150 11)).
Proof.
  split; [intros; apply window_at_11fps|].
  split; [split; [reflexivity | vm_compute; reflexivity]|].
  split.
  { intros F L HF HL. pose proof (max_time_lost_of_bounds F L HF HL) as H.
    unfold window_ok in H. cbv zeta in H.
    destruct (max_time_lost_of F L) as [w|e]; [|discriminate].
    exists w. split; [reflexivity|].
    apply orb_true_iff in H as [H|H]; [left; lia|].
    apply andb_true_iff in H as [H H3]. apply andb_true_iff in H as [H1 H2].
    apply negb_true_iff in H3. right. lia. }
  split; [intros KF MA st r h; apply expire_lost_rule|].
  cbv zeta. split; [vm_compute; reflexivity|].
  split; [repeat split; vm_compute; reflexivity|].
  split; [vm_compute; reflexivity|]. split; [vm_compute; reflexivity|].
  split; [vm_compute; reflexivity|]. split; [vm_compute; reflexivity|].
  vm_compute. intros H. discriminate H.
Qed.

(** The constructor truncates: with a buffer of 1 frame at 20 frames per
    second it sets a window of 0 frames, where [round(1 * 20 / 30)] is 1. *)
Lemma window_truncates_not_rounds :
  (exists st, @init Reference.filter Reference.matching 1 (1 # 4) 1 (4 # 5) 20 1 = Ok st /\
     max_time_lost st = 0) /\
  max_time_lost_spec 1 20 = 1.
Proof. split; [eexists; split; [vm_compute|]; reflexivity | reflexivity]. Qed.

(** ** The score buckets *)

Lemma remain_ind_spec thresh score : remain_ind thresh score = true <-> (thresh < score)%Q.
Proof. apply Qltb_lt. Qed.

Lemma ind_second_spec thresh score :
  ind_second thresh score = true <-> (float_0_1 < score /\ score < thresh)%Q.
Proof.
  unfold ind_second, ind_low, ind_high. rewrite andb_true_iff, !Qltb_lt. reflexivity.
Qed.

Lemma inds_second_lookup thresh (scores : list Q) :
  zip_with andb (ind_low <$> scores) (ind_high thresh <$> scores) =
  ind_second thresh <$> scores.
Proof. induction scores as [|s scores IH]; simpl; [reflexivity|]. f_equal. exact IH. Qed.

(** C3, the code at the boundary.  A score equal to
    [track_activation_threshold] passes neither [scores > threshold] nor
    [scores < threshold]: it is in neither bucket.  The second bucket is
    [0.1 < score < threshold], strict on both sides.  Run on one detection
    of score 0.25 at the default threshold 0.25, the update constructs no
    track object for it and answers -1, where a score of 0.2 yields the
    track object of a low-confidence detection. *)
Theorem threshold_score_in_no_bucket :
  (forall thresh, remain_ind thresh thresh = false /\ ind_second thresh thresh = false) /\
  (forall thresh score,
     (remain_ind thresh score = true <-> (thresh < score)%Q) /\
     (ind_second thresh score = true <-> (float_0_1 < score /\ score < thresh)%Q)) /\
  Reference.update [box_a] [1 # 4] [0] (fresh 1) =
    (Ok [-1], set_frame_id 1 (fresh 1)) /\
  length (heap (Reference.update [box_a] [1 # 5] [0] (fresh 1)).2) = 1%nat.
Proof.
  split; [|split; [|split]].
  - intros thresh. unfold ind_second, ind_high, remain_ind.
    rewrite Qltb_irrefl, andb_false_r. split; reflexivity.
  - intros thresh score. split; [apply remain_ind_spec | apply ind_second_spec].
  - vm_compute. reflexivity.
  - vm_compute. reflexivity.
Qed.

(** ** reset *)

(** C1, the code after [reset].  [reset] leaves the per-class partition
    [cls2tracked_tracks], from which the next update loads the tracked
    tracks of each class, as it was.  After a frame that creates the
    tracks 1 and 2 of class 0 and a reset, the partition still holds both
    tracks, and a detection at the second one's box is answered with the
    id 2 of the track created before the reset; a fresh tracker answers
    1. *)
Theorem reset_keeps_class_partition :
  (forall (KF : KalmanFilter) (st : @BYTETrack KF),
     cls2tracked_tracks (reset st) = cls2tracked_tracks st /\
     heap (reset st) = heap st) /\
  let st1 := (Reference.play [frame [box_a; box_b] [9 # 10; 9 # 10] [0; 0]] (fresh 1)).2 in
  cls2tracked_tracks (reset st1) !! 0 = Some [0%nat; 1%nat] /\
  cls2tracked_tracks (fresh 1) !! 0 = Some [] /\
  (Reference.update [box_b] [9 # 10] [0] (reset st1)).1 = Ok [2] /\
  (Reference.update [box_b] [9 # 10] [0] (fresh 1)).1 = Ok [1].
Proof.
  split; [intros; split; reflexivity|].
  cbv zeta. repeat split; vm_compute; reflexivity.
Qed.

(** ** Classes and the lost list *)

(** C2, the code on two classes.  The lost list is one list for all
    classes.  Frame 1 creates track 1 from a detection of class 0; frame 2,
    a detection of class 0 elsewhere, leaves it lost; in frame 3 the pool
    for class 1, whose own tracked list is empty, holds that track, the
    detection of class 1 re-activates it and is answered with its id 1,
    and the track ends in the tracked list of class 1. *)
Theorem lost_tracks_cross_classes :
  let frames := [frame [box_a] [9 # 10] [0]; frame [box_b] [9 # 10] [0];
                 frame [box_a] [9 # 10] [1]] in
  (Reference.play frames (fresh 2)).1 = [Ok [1]; Ok [2]; Ok [1]] /\
  lost_tracks st_lost = [0%nat] /\
  cls2tracked_tracks st_lost !! 1 = Some [] /\
  @strack_pool_of Reference.filter (set_tracked_tracks [] st_lost) = [0%nat] /\
  cls2tracked_tracks (Reference.play frames (fresh 2)).2 !! 1 = Some [0%nat] /\
  (forall (KF : KalmanFilter) (st : @BYTETrack KF) (tracked : list handle) (current : Z),
     lost_tracks (set_frame_id current (set_tracked_tracks tracked st)) = lost_tracks st).
Proof.
  cbv zeta. repeat split; vm_compute; reflexivity.
Qed.

(** ** Running stateful code *)

Lemma result_bind_Ok_inv {A B} (m : result A) (f : A -> result B) (b : B) :
  m ≫= f = Ok b -> exists a, m = Ok a /\ f a = Ok b.
Proof. destruct m as [a|e]; [|discriminate]. intros H. exists a. auto. Qed.

Section Run.
Context {S : Type}.

Lemma bind_run {A B} (m : M S A) (f : A -> M S B) (st : S) :
  (m ≫= f) st =
    match m st with
    | (Ok a, st') => f a st'
    | (Raise e, st') => (Raise e, st')
    end.
Proof. reflexivity. Qed.

Lemma bind_Ok_inv {A B} (m : M S A) (f : A -> M S B) (st st' : S) (b : B) :
  (m ≫= f) st = (Ok b, st') ->
  exists a st1, m st = (Ok a, st1) /\ f a st1 = (Ok b, st').
Proof.
  rewrite bind_run. destruct (m st) as [[a|e] st1]; [|discriminate].
  intros H. exists a, st1. split; [reflexivity | exact H].
Qed.

Lemma triple_weaken {A} (P P' : S -> Prop) (m : M S A) (Q Q' : A -> S -> Prop)
    (E E' : S -> Prop) :
  triple P m Q E -> (forall st, P' st -> P st) ->
  (forall a st, Q a st -> Q' a st) -> (forall st, E st -> E' st) ->
  triple P' m Q' E'.
Proof.
  intros H HP HQ HE st Hst. specialize (H st (HP st Hst)).
  destruct (m st) as [[a|e] st']; auto.
Qed.

Lemma triple_ret {A} (P : A -> S -> Prop) (E : S -> Prop) (a : A) :
  triple (P a) (mret a) P E.
Proof. intros st H. exact H. Qed.

Lemma triple_bind {A B} (P : S -> Prop) (m : M S A) (Q : A -> S -> Prop)
    (f : A -> M S B) (R : B -> S -> Prop) (E : S -> Prop) :
  triple P m Q E -> (forall a, triple (Q a) (f a) R E) -> triple P (m ≫= f) R E.
Proof.
  intros Hm Hf st Hst. rewrite bind_run. specialize (Hm st Hst).
  destruct (m st) as [[a|e] st1]; [apply (Hf a st1 Hm) | exact Hm].
Qed.








End Run.

(** ** _cls_group *)

Lemma class_rows_cons c order b q k dets :
  class_rows c order ((b, q, k) :: dets) =
    if decide (k = c) then (order, (b, q, k)) :: class_rows c (S order) dets
    else class_rows c (S order) dets.
Proof. unfold class_rows. simpl. rewrite filter_cons. simpl. reflexivity. Qed.

Lemma class_map_lookup {V} (v : V) (n c : Z) :
  (list_to_map ((fun i => (i, v)) <$> range n) : gmap Z V) !! c =
    if decide (0 <= c < n) then Some v else None.
Proof.
  case_decide as H.
  - apply elem_of_list_to_map_1.
    + rewrite <- list_fmap_compose. simpl.
      unfold range. rewrite <- list_fmap_compose. apply NoDup_fmap_2; [|apply NoDup_seq].
      intros x y Hxy. simpl in Hxy. lia.
    + apply list_elem_of_fmap. exists c. split; [reflexivity|]. apply elem_of_range, H.
  - apply not_elem_of_list_to_map_1. rewrite <- list_fmap_compose. simpl.
    rewrite list_fmap_id. rewrite elem_of_range. exact H.
Qed.

Lemma cls_group_loop_Ok (n : Z) (dets : list (box * Q * Z)) :
  forall order (d : gmap Z (list box * list Q * list nat)),
  (forall c, is_Some (d !! c) <-> 0 <= c < n) ->
  Forall (fun p => 0 <= p.2 < n) dets ->
  exists d', cls_group_loop order dets d = Ok d' /\
    forall c, d' !! c = (fun g => add_rows g (class_rows c order dets)) <$> (d !! c).
Proof.
  induction dets as [|[[b q] k] dets IH]; intros order d Hd Hall.
  - exists d. split; [reflexivity|]. intros c. unfold class_rows, add_rows. simpl.
    destruct (d !! c) as [[[bs cs] os]|]; simpl; [|reflexivity].
    rewrite !app_nil_r. reflexivity.
  - apply Forall_cons in Hall as [Hk Hall]. simpl in Hk.
    destruct (proj2 (Hd k) Hk) as [[[bs cs] os] Hg].
    simpl. unfold dict_get. rewrite Hg. simpl.
    set (d1 := <[k := (bs ++ [b], cs ++ [q], os ++ [order])]> d).
    destruct (IH (S order) d1) as (d' & Hrun & Hd'); [|exact Hall|].
    { intros c. subst d1. rewrite lookup_insert_is_Some. rewrite Hd.
      split; [intros [->|[_ H]]; assumption | intros H; destruct (decide (k = c)); auto]. }
    exists d'. split; [exact Hrun|]. intros c. rewrite Hd'. subst d1.
    rewrite class_rows_cons. destruct (decide (k = c)) as [->|Hne].
    + rewrite lookup_insert_eq, Hg. simpl. unfold add_rows; simpl.
      rewrite <- !app_assoc. reflexivity.
    + rewrite lookup_insert_ne by exact Hne. reflexivity.
Qed.

Lemma cls_group_loop_KeyError (n : Z) (dets : list (box * Q * Z)) :
  forall order (d : gmap Z (list box * list Q * list nat)),
  (forall c, is_Some (d !! c) <-> 0 <= c < n) ->
  ~ Forall (fun p => 0 <= p.2 < n) dets ->
  cls_group_loop order dets d = Raise KeyError.
Proof.
  induction dets as [|[[b q] k] dets IH]; intros order d Hd Hall.
  - exfalso. apply Hall. constructor.
  - simpl. unfold dict_get. destruct (d !! k) as [[[bs cs] os]|] eqn:Hg; simpl; [|reflexivity].
    assert (Hk : 0 <= k < n) by (apply Hd; rewrite Hg; eauto).
    apply IH.
    + intros c. rewrite lookup_insert_is_Some, Hd.
      split; [intros [->|[_ H]]; assumption | intros H; destruct (decide (k = c)); auto].
    + intros H. apply Hall. constructor; [exact Hk | exact H].
Qed.

Lemma cls_group_Ok n xs cs ks :
  Forall (fun p : box * Q * Z => 0 <= p.2 < n) (zip (zip xs cs) ks) ->
  exists g, _cls_group n xs cs ks = Ok g /\
    forall c, g !! c =
      if decide (0 <= c < n)
      then Some (add_rows ([], [], []) (class_rows c 0 (zip (zip xs cs) ks)))
      else None.
Proof.
  intros Hall. unfold _cls_group.
  destruct (cls_group_loop_Ok n (zip (zip xs cs) ks) 0
              (list_to_map ((fun cls_id => (cls_id, ([], [], []))) <$> range n)))
    as (g & Hrun & Hg); [|exact Hall|].
  { intros c. rewrite class_map_lookup. case_decide; [split; eauto | split; [intros [? ?]; discriminate | tauto]]. }
  exists g. split; [exact Hrun|]. intros c. rewrite Hg, class_map_lookup.
  case_decide; reflexivity.
Qed.

Lemma cls_group_KeyError n xs cs ks :
  ~ Forall (fun p : box * Q * Z => 0 <= p.2 < n) (zip (zip xs cs) ks) ->
  _cls_group n xs cs ks = Raise KeyError.
Proof.
  intros Hall. unfold _cls_group. apply (cls_group_loop_KeyError n); [|exact Hall].
  intros c. rewrite class_map_lookup.
  case_decide; [split; eauto | split; [intros [? ?]; discriminate | tauto]].
Qed.

(** ** update *)

Lemma zip3_take (xs : list box) (cs : list Q) (ks : list Z) :
  let m := Nat.min (length xs) (Nat.min (length cs) (length ks)) in
  zip (zip (take m xs) (take m cs)) (take m ks) = zip (zip xs cs) ks.
Proof.
  cbv zeta. revert cs ks.
  induction xs as [|x xs IH]; intros [|c cs] [|k ks]; simpl; try reflexivity.
  f_equal. apply IH.
Qed.

Lemma zip3_lookup (xs : list box) (cs : list Q) (ks : list Z) i b q c :
  zip (zip xs cs) ks !! i = Some (b, q, c) <->
  xs !! i = Some b /\ cs !! i = Some q /\ ks !! i = Some c.
Proof.
  rewrite !lookup_zip_with_Some. split.
  - intros ([b' q'] & c' & Heq & Hz & Hk). inversion Heq; subst.
    apply lookup_zip_with_Some in Hz as (b0 & q0 & Heq' & Hb & Hq).
    inversion Heq'; subst. auto.
  - intros (Hb & Hq & Hk). exists (b, q), c. split; [reflexivity|].
    split; [|exact Hk]. apply lookup_zip_with_Some. exists b, q. auto.
Qed.

Section Update.
Context `{MA : Matching}.

Lemma update_run xs cs ks st :
  update xs cs ks st =
    match _cls_group (n_classes st) xs cs ks with
    | Raise e => (Raise e, st)
    | Ok g =>
        match foldM (update_class g (frame_id st)) ([], []) (range (n_classes st)) st with
        | (Raise e, st1) => (Raise e, st1)
        | (Ok (track_id_array, orig_order), st1) =>
            (take_indices track_id_array (argsort orig_order),
             set_frame_id (frame_id st + 1) st1)
        end
    end.
Proof.
  unfold update. rewrite bind_run. unfold gets at 1. rewrite bind_run. unfold lift at 1.
  destruct (_cls_group (n_classes st) xs cs ks) as [g|e]; [|reflexivity].
  rewrite bind_run. unfold gets at 1. rewrite bind_run.
  destruct (foldM (update_class g (frame_id st)) ([], []) (range (n_classes st)) st)
    as [[[tid ord]|e] st1]; reflexivity.
Qed.

Lemma update_class_skip g current acc c confs orders st :
  g !! c = Some ([], confs, orders) ->
  update_class g current acc c st = (Ok acc, st).
Proof.
  intros Hg. unfold update_class. destruct acc as [tid ord].
  rewrite bind_run. unfold lift, dict_get. rewrite Hg. reflexivity.
Qed.

Lemma update_loop_skip g current acc (cl : list Z) st :
  (forall c, c ∈ cl -> exists confs orders, g !! c = Some ([], confs, orders)) ->
  foldM (update_class g current) acc cl st = (Ok acc, st).
Proof.
  induction cl as [|c cl IH]; intros Hg; simpl; [reflexivity|].
  destruct (Hg c) as (confs & orders & Hc); [left|].
  rewrite bind_run, (update_class_skip _ _ _ _ _ _ _ Hc).
  apply IH. intros c' Hc'. apply Hg. right. exact Hc'.
Qed.

(** C5 (as amended).  A class id outside [0, n_classes) at a position that
    all three arrays have makes the update raise KeyError with the tracker
    exactly as it was.  Arrays of unequal length are no error: the update
    is the update of the three arrays cut to the shortest length. *)
Theorem update_rejects_unknown_class :
  (forall st xs cs ks i b q c,
     xs !! i = Some b -> cs !! i = Some q -> ks !! i = Some c ->
     ~ (0 <= c < n_classes st) ->
     update xs cs ks st = (Raise KeyError, st)) /\
  (forall st xs cs ks,
     let m := Nat.min (length xs) (Nat.min (length cs) (length ks)) in
     update xs cs ks st = update (take m xs) (take m cs) (take m ks) st).
Proof.
  split.
  - intros st xs cs ks i b q c Hb Hq Hk Hc. rewrite update_run.
    rewrite cls_group_KeyError; [reflexivity|].
    intros Hall. apply Hc.
    assert (Hz : zip (zip xs cs) ks !! i = Some (b, q, c)) by (apply zip3_lookup; auto).
    exact (proj1 (Forall_lookup _ _) Hall i _ Hz).
  - intros st xs cs ks m. rewrite !update_run. unfold _cls_group.
    subst m. rewrite zip3_take. reflexivity.
Qed.

End Update.

(** C5, refuted as stated: two boxes with one confidence and one class id
    are no error; the update returns an id for the first box and moves the
    tracker on. *)
Lemma update_accepts_unequal_lengths :
  (Reference.update [box_a; box_b] [9 # 10] [0] (fresh 1)).1 = Ok [1] /\
  frame_id (Reference.update [box_a; box_b] [9 # 10] [0] (fresh 1)).2 = 1 /\
  length (heap (Reference.update [box_a; box_b] [9 # 10] [0] (fresh 1)).2) = 1%nat.
Proof. repeat split; vm_compute; reflexivity. Qed.

Lemma update_rejects_unknown_class_witness :
  [box_a; box_b] !! 1%nat = Some box_b /\ [9 # 10; 9 # 10] !! 1%nat = Some (9 # 10) /\
  [0; 2] !! 1%nat = Some 2 /\ ~ (0 <= 2 < n_classes (fresh 2)) /\
  Reference.update [box_a; box_b] [9 # 10; 9 # 10] [0; 2] (fresh 2) =
    (Raise KeyError, fresh 2).
Proof.
  assert (H : ~ (0 <= 2 < n_classes (fresh 2)))
    by (intros [_ H]; vm_compute in H; discriminate).
  split; [reflexivity|]. split; [reflexivity|]. split; [reflexivity|].
  split; [exact H|].
  exact (proj1 (@update_rejects_unknown_class Reference.filter Reference.matching)
           (fresh 2) [box_a; box_b] [9 # 10; 9 # 10] [0; 2] 1%nat box_b (9 # 10) 2
           eq_refl eq_refl eq_refl H).
Defined.

(** ** argsort and indexing *)

#[local] Instance key_le_total : Total key_le.
Proof. intros p q. unfold key_le. lia. Qed.

Lemma Sorted_le_seq (a n : nat) : Sorted le (seq a n).
Proof.
  revert a. induction n as [|n IH]; intros a; simpl; constructor.
  - apply IH.
  - destruct n; simpl; constructor. lia.
Qed.

Lemma elem_of_zip_seq {A} (l : list A) (x : A) (p : nat) :
  (x, p) ∈ zip l (seq 0 (length l)) <-> l !! p = Some x.
Proof.
  rewrite list_elem_of_lookup. split.
  - intros (i & Hi). apply lookup_zip_with_Some in Hi as (x' & p' & Heq & Hx & Hp).
    inversion Heq; subst. apply lookup_seq in Hp as [-> _]. exact Hx.
  - intros Hx. exists p. apply lookup_zip_with_Some. exists x, p.
    split; [reflexivity|]. split; [exact Hx|].
    apply lookup_seq. split; [reflexivity|]. apply (lookup_lt_Some _ _ _ Hx).
Qed.

Lemma argsort_perm (keys : list nat) (n : nat) :
  keys ≡ₚ seq 0 n ->
  length (argsort keys) = n /\
  forall i p, argsort keys !! i = Some p <-> keys !! p = Some i.
Proof.
  intros Hperm. unfold argsort.
  assert (Hlen : length keys = n) by (rewrite Hperm; apply length_seq).
  set (s := merge_sort key_le (zip keys (seq 0 (length keys)))).
  assert (Hs : s ≡ₚ zip keys (seq 0 (length keys))) by apply merge_sort_Permutation.
  assert (Hfst : s.*1 = seq 0 n).
  { apply (Sorted_unique le).
    - apply (Sorted_fmap fst key_le le); [intros x y H; exact H|].
      apply Sorted_merge_sort. apply _.
    - apply Sorted_le_seq.
    - rewrite Hs, fst_zip by (rewrite length_seq; lia). exact Hperm. }
  split.
  { rewrite length_fmap, <- (length_fmap fst), Hfst. apply length_seq. }
  intros i p. rewrite <- (elem_of_zip_seq keys i p), <- Hs. rewrite list_lookup_fmap.
  split.
  - intros Hi. destruct (s !! i) as [[k p']|] eqn:E; [|discriminate].
    simpl in Hi. inversion Hi; subst p'.
    assert (Hk : s.*1 !! i = Some k) by (rewrite list_lookup_fmap, E; reflexivity).
    rewrite Hfst in Hk. apply lookup_seq in Hk as [-> _].
    apply list_elem_of_lookup. exists i. exact E.
  - intros Hin. apply list_elem_of_lookup in Hin as (j & Hj).
    assert (Hk : s.*1 !! j = Some i) by (rewrite list_lookup_fmap, Hj; reflexivity).
    rewrite Hfst in Hk. apply lookup_seq in Hk as [Hk _]. simpl in Hk. subst j.
    rewrite Hj. reflexivity.
Qed.

Lemma take_indices_spec {A} (a : list A) (indices : list nat) :
  Forall (fun p => (p < length a)%nat) indices ->
  exists out, take_indices a indices = Ok out /\
    length out = length indices /\
    forall i p, indices !! i = Some p -> out !! i = a !! p.
Proof.
  unfold take_indices. induction indices as [|p indices IH]; intros Hall.
  - exists []. split; [reflexivity|]. split; [reflexivity|]. intros i p H. discriminate.
  - apply Forall_cons in Hall as [Hp Hall].
    destruct (IH Hall) as (out & Hrun & Hlen & Hout).
    destruct (lookup_lt_is_Some_2 a p Hp) as [x Hx].
    exists (x :: out). split.
    + simpl. replace (getitem a p) with (Ok x) by (unfold getitem; rewrite Hx; reflexivity).
      simpl. rewrite Hrun. reflexivity.
    + split; [simpl; lia|]. intros [|i] p' Hi; simpl in *.
      * inversion Hi; subst. symmetry. exact Hx.
      * apply Hout, Hi.
Qed.

(** ** single_cls_update *)

Section SingleClass.
Context `{MA : Matching}.

Lemma assign_ids_spec (P : Z -> Prop) (hp : list STrack.t) (tracks : list handle)
    (n : nat) (matches : list (nat * nat)) (ids : list Z) :
  P (-1) -> (forall h, P (STrack.external_track_id (track hp h))) ->
  assign_ids hp tracks n matches = Ok ids ->
  length ids = n /\ Forall P ids.
Proof.
  intros Hno Hext. unfold assign_ids.
  assert (Hgen : forall arr, Forall P arr ->
            foldM (fun (track_id_array : list Z) '(i_detection, i_track) =>
                     h ← getitem tracks i_track;
                     setitem track_id_array i_detection
                       (STrack.external_track_id (track hp h))) arr matches = Ok ids ->
            length ids = length arr /\ Forall P ids).
  { induction matches as [|[i_det i_track] matches IH]; intros arr Harr Hrun.
    - simpl in Hrun. inversion Hrun; subst. auto.
    - simpl in Hrun.
      apply result_bind_Ok_inv in Hrun as (arr1 & Hstep & Hrun).
      apply result_bind_Ok_inv in Hstep as (h & _ & Hset).
      unfold setitem in Hset.
      destruct (decide (i_det < length arr)%nat); [|discriminate].
      inversion Hset; subst arr1.
      destruct (IH _ (Forall_insert _ _ _ _ Harr (Hext h)) Hrun) as [Hl Hf].
      rewrite length_insert in Hl. auto. }
  intros Hrun. destruct (Hgen _ (Forall_replicate _ _ _ Hno) Hrun) as [Hl Hf].
  rewrite length_replicate in Hl. auto.
Qed.

(** The array [single_cls_update] returns has one entry for each
    detection it was given. *)
Lemma single_cls_update_length xyxy conf st ids st' :
  single_cls_update xyxy conf st = (Ok ids, st') ->
  length xyxy = length conf ->
  length ids = length conf.
Proof.
  intros Hrun Hlen. unfold single_cls_update in Hrun.
  destruct (decide (length xyxy * length conf = 0)%nat) as [Hz|Hz].
  { inversion Hrun; subst. simpl. nia. }
  destruct (decide (length xyxy ≠ length conf)) as [Hne|_]; [contradiction|].
  apply bind_Ok_inv in Hrun as (tracks & st1 & _ & Hrun).
  destruct (decide (0 < length tracks)%nat).
  - apply bind_Ok_inv in Hrun as (hp & st2 & _ & Hrun).
    destruct (linear_assignment _ _) as [[matches u1] u2].
    unfold lift in Hrun. inversion Hrun as [[Hids Hst]].
    apply (assign_ids_spec (fun _ => True)) in Hids as [Hl _]; auto.
  - inversion Hrun; subst. apply length_replicate.
Qed.

End SingleClass.

(** ** The loop over the classes *)

Lemma flat_snoc calls c xyxy conf order ids :
  flat (calls ++ [mk_call c xyxy conf order ids]) =
    ((flat calls).1 ++ ids, (flat calls).2 ++ order).
Proof.
  unfold flat. rewrite !fmap_app, !concat_app. simpl. rewrite !app_nil_r. reflexivity.
Qed.

Lemma concat_lookup_aligned {A B C} (f : C -> list A) (g : C -> list B)
    (l : list C) (c : C) (k : nat) (x : A) (y : B) :
  Forall (fun c => length (f c) = length (g c)) l ->
  c ∈ l -> f c !! k = Some x -> g c !! k = Some y ->
  exists p, concat (f <$> l) !! p = Some x /\ concat (g <$> l) !! p = Some y.
Proof.
  induction l as [|c0 l IH]; intros Hall Hin Hx Hy; [inversion Hin|].
  apply Forall_cons in Hall as [Hlen Hall]. simpl.
  apply elem_of_cons in Hin as [->|Hin].
  - exists k. split; apply lookup_app_l_Some; assumption.
  - destruct (IH Hall Hin Hx Hy) as (p & Hp1 & Hp2).
    exists (length (f c0) + p)%nat. split.
    + rewrite lookup_app_r by lia. replace (length (f c0) + p - length (f c0))%nat with p by lia.
      exact Hp1.
    + rewrite lookup_app_r by lia. replace (length (f c0) + p - length (g c0))%nat with p by lia.
      exact Hp2.
Qed.

Lemma concat_insert_one {A} (X : Z -> list A) (x : A) (k : Z) (cl : list Z) :
  NoDup cl -> k ∈ cl ->
  concat ((fun c => if decide (k = c) then x :: X c else X c) <$> cl) ≡ₚ
  x :: concat (X <$> cl).
Proof.
  induction cl as [|c0 cl IH]; intros Hnd Hin; [inversion Hin|].
  apply NoDup_cons in Hnd as [Hc0 Hnd]. rewrite !fmap_cons. cbn [concat].
  destruct (decide (k = c0)) as [->|Hne].
  - assert (E : (fun c => if decide (c0 = c) then x :: X c else X c) <$> cl = X <$> cl).
    { apply list_fmap_ext. intros i c Hc. apply list_elem_of_lookup_2 in Hc.
      rewrite decide_False by (intros ->; contradiction). reflexivity. }
    rewrite E. reflexivity.
  - apply elem_of_cons in Hin as [->|Hin]; [contradiction|].
    rewrite (IH Hnd Hin). symmetry. apply Permutation_middle.
Qed.

Lemma class_rows_concat_perm (cl : list Z) (dets : list (box * Q * Z)) :
  NoDup cl -> Forall (fun p => p.2 ∈ cl) dets ->
  forall order,
  concat ((fun c => (class_rows c order dets).*1) <$> cl) ≡ₚ seq order (length dets).
Proof.
  intros Hnd. induction dets as [|[[b q] k] dets IH]; intros Hall order.
  - simpl. unfold class_rows. simpl. clear Hnd Hall.
    induction cl as [|c cl IHcl]; simpl; [reflexivity | exact IHcl].
  - apply Forall_cons in Hall as [Hk Hall]. simpl in Hk.
    simpl length. simpl seq. rewrite <- (IH Hall (S order)).
    rewrite <- (concat_insert_one _ order k cl Hnd Hk).
    assert (E : (fun c => (class_rows c order ((b, q, k) :: dets)).*1) <$> cl =
                (fun c => if decide (k = c)
                          then order :: (class_rows c (S order) dets).*1
                          else (class_rows c (S order) dets).*1) <$> cl).
    { apply list_fmap_ext. intros _ c _. rewrite class_rows_cons.
      destruct (decide (k = c)); reflexivity. }
    rewrite E. reflexivity.
Qed.

Lemma class_rows_lookup (c : Z) (dets : list (box * Q * Z)) i b q :
  dets !! i = Some (b, q, c) ->
  exists k, class_rows c 0 dets !! k = Some (i, (b, q, c)).
Proof.
  intros Hi. apply list_elem_of_lookup. unfold class_rows.
  apply list_elem_of_filter. split; [reflexivity|].
  apply list_elem_of_lookup. exists i. apply lookup_zip_with_Some.
  exists i, (b, q, c). split; [reflexivity|]. split; [|exact Hi].
  apply lookup_seq. split; [reflexivity|]. apply (lookup_lt_Some _ _ _ Hi).
Qed.

Section ClassLoop.
Context `{MA : Matching}.

Lemma update_class_flat g current calls c st :
  update_class g current (flat calls) c st =
    match update_class_traced g current calls c st with
    | (Ok calls', st') => (Ok (flat calls'), st')
    | (Raise e, st') => (Raise e, st')
    end.
Proof.
  unfold update_class, update_class_traced.
  destruct (flat calls) as [tid ord] eqn:Hflat.
  unfold mbind, M_bind, lift, gets, modify, mret, M_ret.
  destruct (dict_get g c) as [[[xyxy conf] order]|e]; [|reflexivity].
  destruct (decide (length xyxy < 1)%nat); [rewrite Hflat; reflexivity|].
  destruct (dict_get (cls2tracked_tracks st) c) as [tracked|e]; [|reflexivity].
  destruct (single_cls_update xyxy conf _) as [[ids|e] st1]; [|reflexivity].
  rewrite flat_snoc, Hflat. reflexivity.
Qed.

Lemma update_loop_flat g current (cl : list Z) :
  forall calls st,
  foldM (update_class g current) (flat calls) cl st =
    match foldM (update_class_traced g current) calls cl st with
    | (Ok calls', st') => (Ok (flat calls'), st')
    | (Raise e, st') => (Raise e, st')
    end.
Proof.
  induction cl as [|c cl IH]; intros calls st; cbn [foldM]; [reflexivity|].
  rewrite !bind_run, update_class_flat.
  destruct (update_class_traced g current calls c st) as [[calls1|e] st1]; [|reflexivity].
  apply IH.
Qed.

Lemma update_class_traced_ok n dets g current calls c st calls' st' :
  (forall c, g !! c =
     if decide (0 <= c < n) then Some (add_rows ([], [], []) (class_rows c 0 dets))
     else None) ->
  update_class_traced g current calls c st = (Ok calls', st') ->
  (class_rows c 0 dets = [] /\ calls' = calls) \/
  (exists call, calls' = calls ++ [call] /\ call_cls call = c /\ call_ok dets call).
Proof.
  intros Hg Hrun. unfold update_class_traced in Hrun.
  apply bind_Ok_inv in Hrun as ([[xyxy conf] order] & st0 & Hget & Hrun).
  unfold lift, dict_get in Hget. rewrite Hg in Hget.
  destruct (decide (0 <= c < n)) as [Hc|Hc]; [|discriminate].
  unfold add_rows in Hget. simpl in Hget.
  inversion Hget; subst xyxy conf order st0. clear Hget.
  destruct (decide (length ((fun p : nat * (box * Q * Z) => p.2.1.1) <$> class_rows c 0 dets) < 1)%nat)
    as [Hlt|Hge].
  { left. rewrite length_fmap in Hlt. inversion Hrun; subst.
    split; [|reflexivity]. destruct (class_rows c 0 dets); [reflexivity|simpl in Hlt; lia]. }
  right. rewrite length_fmap in Hge.
  apply bind_Ok_inv in Hrun as (c2t & st1 & _ & Hrun).
  apply bind_Ok_inv in Hrun as (tracked & st2 & _ & Hrun).
  apply bind_Ok_inv in Hrun as (u1 & st3 & _ & Hrun).
  apply bind_Ok_inv in Hrun as (u2 & st4 & _ & Hrun).
  apply bind_Ok_inv in Hrun as (ids & st5 & Hsingle & Hrun).
  apply bind_Ok_inv in Hrun as (u3 & st6 & _ & Hrun).
  inversion Hrun; subst calls' st'. eexists. split; [reflexivity|].
  split; [reflexivity|]. unfold call_ok. simpl.
  split; [intros E; rewrite E in Hge; simpl in Hge; lia|].
  repeat split; try reflexivity.
  apply single_cls_update_length in Hsingle; [|rewrite !length_fmap; reflexivity].
  rewrite Hsingle, length_fmap. reflexivity.
Qed.

Lemma update_calls_ok n dets g current (cl : list Z) :
  (forall c, g !! c =
     if decide (0 <= c < n) then Some (add_rows ([], [], []) (class_rows c 0 dets))
     else None) ->
  forall calls st calls' st',
  foldM (update_class_traced g current) calls cl st = (Ok calls', st') ->
  exists new, calls' = calls ++ new /\
    call_cls <$> new = filter (fun c => class_rows c 0 dets <> []) cl /\
    Forall (call_ok dets) new.
Proof.
  intros Hg. induction cl as [|c cl IH]; intros calls st calls' st' Hrun.
  - simpl in Hrun. inversion Hrun; subst. exists []. rewrite app_nil_r. auto.
  - simpl in Hrun. apply bind_Ok_inv in Hrun as (calls1 & st1 & Hstep & Hrun).
    destruct (IH _ _ _ _ Hrun) as (new & -> & Hcls & Hok).
    destruct (update_class_traced_ok n dets g current calls c st calls1 st1 Hg Hstep)
      as [[Hempty ->]|(call & -> & Hc & Hcall)].
    + exists new. split; [reflexivity|]. split; [|exact Hok].
      rewrite filter_cons, decide_False by (intros H; apply H, Hempty). exact Hcls.
    + exists (call :: new). rewrite <- app_assoc. split; [reflexivity|].
      split; [|constructor; assumption].
      destruct Hcall as (Hne & _). rewrite Hc in Hne.
      rewrite filter_cons, decide_True by exact Hne.
      rewrite fmap_cons, Hc, Hcls. reflexivity.
Qed.

End ClassLoop.

(** ** Order preservation *)

Lemma concat_filter_nonempty {A} (rows : Z -> list A) {B} (f : A -> B) (cl : list Z) :
  concat ((fun c => f <$> rows c) <$> filter (fun c => rows c <> []) cl) =
  concat ((fun c => f <$> rows c) <$> cl).
Proof.
  induction cl as [|c cl IH]; [reflexivity|].
  rewrite filter_cons. destruct (decide (rows c <> [])) as [Hne|He];
    rewrite !fmap_cons; cbn [concat].
  - rewrite IH. reflexivity.
  - rewrite IH. destruct (rows c); [reflexivity|]. exfalso. apply He. discriminate.
Qed.

Lemma concat_length_eq {A B C} (f : C -> list A) (g : C -> list B) (l : list C) :
  Forall (fun c => length (f c) = length (g c)) l ->
  length (concat (f <$> l)) = length (concat (g <$> l)).
Proof.
  induction 1 as [|c l Hc Hl IH]; [reflexivity|].
  rewrite !fmap_cons. cbn [concat]. rewrite !length_app, Hc, IH. reflexivity.
Qed.

Section Alignment.
Context `{MA : Matching}.

Lemma update_calls_run xs cs ks st :
  update_calls xs cs ks st =
    match _cls_group (n_classes st) xs cs ks with
    | Raise e => (Raise e, st)
    | Ok g => foldM (update_class_traced g (frame_id st)) [] (range (n_classes st)) st
    end.
Proof.
  unfold update_calls, mbind, M_bind, gets, lift.
  destruct (_cls_group (n_classes st) xs cs ks) as [g|e]; [|reflexivity].
  destruct (foldM (update_class_traced g (frame_id st)) [] (range (n_classes st)) st)
    as [[calls|e] st1]; reflexivity.
Qed.

(** The arrays accumulated from calls made on the detections of each
    class that has some, one id for each detection, are put back in input
    order by [argsort]. *)
Lemma calls_output (n : Z) (dets : list (box * Q * Z)) (calls : list cls_call) :
  Forall (fun p : box * Q * Z => 0 <= p.2 < n) dets ->
  call_cls <$> calls = filter (fun c => class_rows c 0 dets <> []) (range n) ->
  Forall (call_ok dets) calls ->
  exists out, take_indices (flat calls).1 (argsort (flat calls).2) = Ok out /\
    length out = length dets /\
    forall i b q c, dets !! i = Some (b, q, c) ->
      exists call k v, call ∈ calls /\ call_cls call = c /\
        call_xyxy call !! k = Some b /\ call_conf call !! k = Some q /\
        call_order call !! k = Some i /\
        call_ids call !! k = Some v /\ out !! i = Some v.
Proof.
  intros Hall Hcls Hok. unfold flat. simpl.
  set (tid := concat (call_ids <$> calls)).
  set (ord := concat (call_order <$> calls)).
  assert (Hnd : NoDup (range n)).
  { unfold range. apply NoDup_fmap_2; [intros x y Hxy; lia | apply NoDup_seq]. }
  assert (Hord : ord ≡ₚ seq 0 (length dets)).
  { subst ord.
    assert (E : call_order <$> calls =
                (fun c => (class_rows c 0 dets).*1) <$> (call_cls <$> calls)).
    { rewrite <- list_fmap_compose. apply Forall_fmap_ext_1.
      eapply Forall_impl; [exact Hok|]. intros call (_ & _ & _ & Ho & _). exact Ho. }
    rewrite E, Hcls, (concat_filter_nonempty (fun c => class_rows c 0 dets) fst).
    apply class_rows_concat_perm; [exact Hnd|].
    eapply Forall_impl; [exact Hall|]. intros p Hp. apply elem_of_range, Hp. }
  assert (Hlen : length tid = length ord).
  { apply concat_length_eq. eapply Forall_impl; [exact Hok|].
    intros call (_ & _ & _ & Ho & Hl). rewrite Ho, length_fmap. exact Hl. }
  destruct (argsort_perm ord (length dets) Hord) as [Hslen Hsort].
  destruct (take_indices_spec tid (argsort ord)) as (out & Hout & Holen & Hoidx).
  { apply Forall_lookup. intros i p Hp. apply Hsort in Hp.
    rewrite Hlen. apply (lookup_lt_Some _ _ _ Hp). }
  exists out. split; [exact Hout|]. split; [rewrite Holen, Hslen; reflexivity|].
  intros i b q c Hi.
  assert (Hc : 0 <= c < n) by exact (proj1 (Forall_lookup _ _) Hall i _ Hi).
  destruct (class_rows_lookup c dets i b q Hi) as (k & Hrow).
  assert (Hin : c ∈ call_cls <$> calls).
  { rewrite Hcls. apply list_elem_of_filter. split; [|apply elem_of_range, Hc].
    intros E. rewrite E in Hrow. discriminate. }
  apply list_elem_of_fmap in Hin as (call & Hcc & Hcall).
  pose proof (proj1 (Forall_forall _ _) Hok call Hcall) as (_ & Hx & Hcf & Ho & Hl).
  rewrite <- Hcc in Hx, Hcf, Ho, Hl.
  assert (Hlt : (k < length (call_ids call))%nat).
  { rewrite Hl. apply (lookup_lt_Some _ _ _ Hrow). }
  destruct (lookup_lt_is_Some_2 _ _ Hlt) as [v Hv].
  assert (Hok' : call_order call !! k = Some i).
  { rewrite Ho, list_lookup_fmap, Hrow. reflexivity. }
  exists call, k, v. split; [exact Hcall|]. split; [symmetry; exact Hcc|].
  split; [rewrite Hx, list_lookup_fmap, Hrow; reflexivity|].
  split; [rewrite Hcf, list_lookup_fmap, Hrow; reflexivity|].
  split; [exact Hok'|]. split; [exact Hv|].
  destruct (concat_lookup_aligned call_order call_ids calls call k i v) as (p & Hp1 & Hp2);
    try assumption.
  { eapply Forall_impl; [exact Hok|].
    intros call' (_ & _ & _ & Ho' & Hl'). rewrite Ho', length_fmap. symmetry. exact Hl'. }
  fold ord in Hp1. fold tid in Hp2.
  rewrite (Hoidx i p); [exact Hp2|]. apply Hsort, Hp1.
Qed.

(** What an update that got past the grouping returns, from the record of
    its calls. *)
Lemma update_from_calls xs cs ks st g :
  _cls_group (n_classes st) xs cs ks = Ok g ->
  update xs cs ks st =
    match foldM (update_class_traced g (frame_id st)) [] (range (n_classes st)) st with
    | (Ok calls, st1) =>
        (take_indices (flat calls).1 (argsort (flat calls).2),
         set_frame_id (frame_id st + 1) st1)
    | (Raise e, st1) => (Raise e, st1)
    end.
Proof.
  intros Hg. rewrite update_run, Hg.
  pose proof (update_loop_flat g (frame_id st) (range (n_classes st)) [] st) as Hflat.
  change (flat []) with (([] : list Z), ([] : list nat)) in Hflat.
  rewrite Hflat.
  destruct (foldM (update_class_traced g (frame_id st)) [] (range (n_classes st)) st)
    as [[calls|e] st1]; [|reflexivity].
  destruct (flat calls) as [tid ord]. reflexivity.
Qed.

End Alignment.

(** ** Reported ids *)


Section Ids.
Context `{MA : Matching}.






























End Ids.

(** ** Updates that return *)

Section SafeRules.
Context {S : Type}.

Lemma safe_ret {A} (I : S -> Prop) (a : A) : safe I (mret a : M S A).
Proof. intros st H. exact H. Qed.

Lemma safe_bind {A B} (I : S -> Prop) (m : M S A) (f : A -> M S B) :
  safe I m -> (forall a, safe I (f a)) -> safe I (m ≫= f).
Proof. intros Hm Hf. apply (triple_bind I m (fun _ => I)); assumption. Qed.

Lemma safe_gets {A} (I : S -> Prop) (g : S -> A) : safe I (gets g).
Proof. intros st H. exact H. Qed.

Lemma safe_modify (I : S -> Prop) (g : S -> S) :
  (forall st, I st -> I (g st)) -> safe I (modify g).
Proof. intros Hg st H. apply Hg, H. Qed.

Lemma safe_getitem {A} (I : S -> Prop) (l : list A) (i : nat) :
  (i < length l)%nat -> safe I (lift (getitem l i)).
Proof.
  intros Hi st H. unfold lift, getitem.
  destruct (lookup_lt_is_Some_2 l i Hi) as [x ->]. exact H.
Qed.

Lemma safe_lift_Ok {A} (I : S -> Prop) (r : result A) (a : A) :
  r = Ok a -> safe I (lift r).
Proof. intros -> st H. exact H. Qed.

Lemma safe_foldM {A B} (I : S -> Prop) (f : B -> A -> M S B) (l : list A) :
  (forall b a, a ∈ l -> safe I (f b a)) -> forall b, safe I (foldM f b l).
Proof.
  induction l as [|a l IH]; intros Hf b; cbn [foldM].
  - apply safe_ret.
  - apply safe_bind; [apply Hf; left|]. intros b'. apply IH.
    intros b0 a0 Ha. apply Hf. right. exact Ha.
Qed.

Lemma safe_mapM {A B} (I : S -> Prop) (f : A -> M S B) (l : list A) :
  (forall a, safe I (f a)) -> safe I (mapM f l).
Proof.
  intros Hf. induction l as [|a l IH]; simpl.
  - apply safe_ret.
  - apply safe_bind; [apply Hf|]. intros b.
    apply safe_bind; [exact IH|]. intros bs. apply safe_ret.
Qed.

Lemma safe_returns {A} (I : S -> Prop) (m : M S A) (st : S) :
  safe I m -> I st -> exists a st', m st = (Ok a, st') /\ I st'.
Proof.
  intros Hm Hst. specialize (Hm st Hst).
  destruct (m st) as [[a|e] st']; [|contradiction]. eauto.
Qed.

End SafeRules.

(** The reference matcher returns what the spec expects of a matcher. *)
Lemma matchings_range (n : nat) :
  forall i cols a, a ∈ Reference.matchings n i cols ->
  Forall (fun p => (i <= p.1 < i + n)%nat /\ p.2 ∈ cols) a.
Proof.
  induction n as [|n IH]; intros i cols a Ha; simpl in Ha.
  - apply list_elem_of_singleton in Ha. subst a. constructor.
  - apply elem_of_app in Ha as [Ha|Ha].
    + eapply Forall_impl; [exact (IH _ _ _ Ha)|]. intros p [H1 H2]. split; [lia | exact H2].
    + apply list_elem_of_join in Ha as (l & Ha & Hl).
      apply list_elem_of_fmap in Hl as (c & -> & Hc).
      apply list_elem_of_fmap in Ha as (a' & -> & Ha').
      constructor; [simpl; split; [lia | exact Hc]|].
      eapply Forall_impl; [exact (IH _ _ _ Ha')|]. intros p [H1 H2]. split; [lia|].
      apply list_elem_of_In, filter_In in H2 as [H2 _]. apply list_elem_of_In, H2.
Qed.

Lemma cheapest_elem (m : matrix) (candidates : list (list (nat * nat))) :
  Reference.cheapest m candidates = [] \/ Reference.cheapest m candidates ∈ candidates.
Proof.
  unfold Reference.cheapest. destruct candidates as [|a0 candidates]; [left; reflexivity|].
  right. simpl.
  assert (H : forall l best, best ∈ a0 :: candidates -> (forall a, a ∈ l -> a ∈ a0 :: candidates) ->
            foldl (fun best a => if Qltb (Reference.total_cost m a) (Reference.total_cost m best)
                                 then a else best) best l ∈ a0 :: candidates).
  { induction l as [|a l IH]; intros best Hb Hl; simpl; [exact Hb|].
    apply IH; [|intros a' Ha'; apply Hl; right; exact Ha'].
    destruct (Qltb _ _); [apply Hl; left | exact Hb]. }
  apply H; [left | intros a Ha; right; exact Ha].
Qed.

Lemma reference_matching_ok : @matcher_ok Reference.filter Reference.matching.
Proof.
  split.
  - intros a b. simpl.
    unfold Reference.iou_distance, matrix_of, one_minus, box_iou_batch, asarray.
    cbn [n_rows n_cols entries arr_rows arr_cols arr_entries arr_dtype rows_of dtype_of].
    rewrite !length_fmap. repeat split.
    rewrite <- !list_fmap_compose. apply Forall_fmap, Forall_forall. intros x _.
    cbn [compose]. rewrite !length_fmap. reflexivity.
  - intros m d. split; reflexivity.
  - intros m thresh. simpl. unfold Reference.linear_assignment. simpl.
    split; [|split].
    + set (full := List.filter _ (Reference.matchings (n_rows m) 0 (seq 0 (n_cols m)))).
      apply Forall_forall. intros p Hp.
      apply list_elem_of_In, filter_In in Hp as [Hp _]. apply list_elem_of_In in Hp.
      destruct (cheapest_elem m full) as [E|Hin]; [rewrite E in Hp; inversion Hp|].
      subst full. apply list_elem_of_In, filter_In in Hin as [Hin _].
      apply list_elem_of_In in Hin. apply matchings_range in Hin.
      pose proof (proj1 (Forall_forall _ _) Hin p Hp) as [H1 H2].
      apply elem_of_seq in H2. lia.
    + apply Forall_forall. intros i Hi.
      apply list_elem_of_In, filter_In in Hi as [Hi _].
      apply list_elem_of_In, elem_of_seq in Hi. lia.
    + apply Forall_forall. intros j Hj.
      apply list_elem_of_In, filter_In in Hj as [Hj _].
      apply list_elem_of_In, elem_of_seq in Hj. lia.
Qed.

Ltac safe_step :=
  match goal with
  | |- safe _ (mret _) => apply safe_ret
  | |- safe _ (gets _) => apply safe_gets
  | |- safe _ (_ ≫= _) => apply safe_bind
  | |- safe _ (mapM _ _) => apply safe_mapM
  | |- safe _ (if ?b then _ else _) => destruct b
  | |- safe _ (match ?p with _ => _ end) => destruct p
  | |- safe _ (match ?p with _ => _ end _) => destruct p; cbv beta
  | |- safe _ ((fun _ => _) _) => cbv beta
  | |- forall _, _ => intro
  end.

Section Returns.
Context `{MA : Matching}.
Hypothesis matcher : matcher_ok.
Variable n : Z.

Lemma classes_are_same (st st' : BYTETrack) :
  n_classes st' = n_classes st -> cls2tracked_tracks st' = cls2tracked_tracks st ->
  classes_are n st -> classes_are n st'.
Proof. unfold classes_are, partition_ok. intros -> ->. tauto. Qed.

Lemma safe_setter (g : BYTETrack -> BYTETrack) :
  (forall st, n_classes (g st) = n_classes st /\
              cls2tracked_tracks (g st) = cls2tracked_tracks st) ->
  safe (classes_are n) (modify g).
Proof.
  intros Hg. apply safe_modify. intros st H.
  destruct (Hg st) as [Hn Hc]. exact (classes_are_same st (g st) Hn Hc H).
Qed.

Lemma safe_on_track h f : safe (classes_are n) (on_track h f).
Proof. apply safe_setter. intros st. split; reflexivity. Qed.

Lemma safe_new_strack d : safe (classes_are n) (new_strack d).
Proof. intros st H. exact H. Qed.

Lemma safe_activate_track h frame : safe (classes_are n) (activate_track h frame).
Proof.
  intros st H. unfold activate_track.
  destruct (STrack.activate frame (internal_id_counter st) (external_id_counter st)
              (track (heap st) h)) as [[tr i] e].
  exact H.
Qed.

Ltac safe_prim :=
  first [ apply safe_on_track | apply safe_new_strack | apply safe_activate_track
        | apply safe_setter; intros ?; split; reflexivity ].

Ltac safe_auto := repeat first [safe_step | safe_prim].

Ltac in_range H Hin :=
  let R := fresh "R" in
  pose proof (proj1 (Forall_forall _ _) H _ Hin) as R; simpl in R.

Lemma safe_multi_predict pool : safe (classes_are n) (multi_predict pool).
Proof. unfold multi_predict. apply safe_foldM. intros. safe_auto. Qed.

Lemma safe_apply_matches pool detections frame acc matches :
  Forall (fun p => (p.1 < length pool)%nat /\ (p.2 < length detections)%nat) matches ->
  safe (classes_are n) (apply_matches pool detections frame acc matches).
Proof.
  intros Hm. unfold apply_matches. apply safe_foldM. intros [a r] [i j] Hin.
  in_range Hm Hin. cbv beta iota.
  apply safe_bind; [apply safe_getitem; tauto|]. intros h.
  apply safe_bind; [apply safe_getitem; tauto|]. intros det. safe_auto.
Qed.

Lemma safe_r_tracked_of pool u_track :
  Forall (fun i => (i < length pool)%nat) u_track ->
  safe (classes_are n) (r_tracked_of pool u_track).
Proof.
  intros Hu. unfold r_tracked_of. apply safe_foldM. intros r i Hin. in_range Hu Hin.
  apply safe_bind; [apply safe_getitem; assumption|]. safe_auto.
Qed.

Lemma safe_mark_lost r u_track :
  Forall (fun i => (i < length r)%nat) u_track ->
  safe (classes_are n) (mark_lost r u_track).
Proof.
  intros Hu. unfold mark_lost. apply safe_foldM. intros l i Hin. in_range Hu Hin.
  apply safe_bind; [apply safe_getitem; assumption|]. safe_auto.
Qed.

Lemma safe_update_unconfirmed unconfirmed detections frame acc matches :
  Forall (fun p => (p.1 < length unconfirmed)%nat /\ (p.2 < length detections)%nat) matches ->
  safe (classes_are n) (update_unconfirmed unconfirmed detections frame acc matches).
Proof.
  intros Hm. unfold update_unconfirmed. apply safe_foldM. intros a [i j] Hin.
  in_range Hm Hin. cbv beta iota.
  apply safe_bind; [apply safe_getitem; tauto|]. intros h.
  apply safe_bind; [apply safe_getitem; tauto|]. intros det. safe_auto.
Qed.

Lemma safe_remove_unconfirmed unconfirmed u :
  Forall (fun i => (i < length unconfirmed)%nat) u ->
  safe (classes_are n) (remove_unconfirmed unconfirmed u).
Proof.
  intros Hu. unfold remove_unconfirmed. apply safe_foldM. intros l i Hin. in_range Hu Hin.
  apply safe_bind; [apply safe_getitem; assumption|]. safe_auto.
Qed.

Lemma safe_init_new_stracks detections frame acc u :
  Forall (fun i => (i < length detections)%nat) u ->
  safe (classes_are n) (init_new_stracks detections frame acc u).
Proof.
  intros Hu. unfold init_new_stracks. apply safe_foldM. intros l i Hin. in_range Hu Hin.
  apply safe_bind; [apply safe_getitem; assumption|]. safe_auto.
Qed.

Lemma safe_expire_lost r : safe (classes_are n) (expire_lost r).
Proof.
  unfold expire_lost. apply safe_bind; [apply safe_gets|]. intros lost.
  apply safe_foldM. intros. unfold expire_step. safe_auto.
Qed.

Lemma foldM_result_Ok {A B} (f : B -> A -> result B) (l : list A) :
  (forall b a, a ∈ l -> exists b', f b a = Ok b') ->
  forall b, exists r, foldM f b l = Ok r.
Proof.
  induction l as [|a l IH]; intros Hf b; cbn [foldM].
  - exists b. reflexivity.
  - destruct (Hf b a) as [b' Hb']; [left|]. rewrite Hb'. simpl.
    apply IH. intros b0 a0 Ha. apply Hf. right. exact Ha.
Qed.

Lemma where_lt_range (m : matrix) (c : Q) (i j : nat) :
  (i, j) ∈ where_lt m c ->
  exists row, entries m !! i = Some row /\ (j < length row)%nat.
Proof.
  unfold where_lt. intros Hin.
  apply list_elem_of_join in Hin as (l & Hin & Hl).
  apply elem_of_lookup_imap in Hl as (i' & row & -> & Hrow).
  apply list_elem_of_fmap in Hin as ([j' q] & Heq & Hp). simpl in Heq.
  inversion Heq; subst i' j'.
  apply list_elem_of_filter in Hp as [_ Hp].
  apply elem_of_lookup_imap in Hp as (j' & q' & Heq' & Hq). inversion Heq'; subst j' q'.
  exists row. split; [exact Hrow|]. apply (lookup_lt_Some _ _ _ Hq).
Qed.

Lemma tracks_of_length hp (l : list handle) : length (tracks_of hp l) = length l.
Proof. apply length_fmap. Qed.

Lemma remove_duplicate_tracks_Ok hp tracks_a tracks_b :
  exists r, remove_duplicate_tracks hp tracks_a tracks_b = Ok r.
Proof using matcher.
  unfold remove_duplicate_tracks.
  destruct (iou_distance_shape matcher (tracks_of hp tracks_a) (tracks_of hp tracks_b))
    as (_ & _ & Hrows & Hcols).
  rewrite !tracks_of_length in Hrows.
  match goal with
  | |- context [foldM ?f ?b0 ?l] =>
      assert (Hr : exists r, foldM f b0 l = Ok r); [apply foldM_result_Ok|]
  end.
  - intros [da db] [i j] Hin. apply where_lt_range in Hin as (row & Hrow & Hj).
    pose proof (lookup_lt_Some _ _ _ Hrow) as Hi. rewrite Hrows in Hi.
    pose proof (proj1 (Forall_lookup _ _) Hcols _ _ Hrow) as Hlen. simpl in Hlen.
    rewrite tracks_of_length in Hlen. rewrite Hlen in Hj.
    destruct (lookup_lt_is_Some_2 tracks_a i Hi) as [ha Hha].
    destruct (lookup_lt_is_Some_2 tracks_b j Hj) as [hb Hhb].
    unfold getitem. rewrite Hha, Hhb. simpl. case_decide; eauto.
  - destruct Hr as [[da db] Hr]. rewrite Hr. simpl. eauto.
Qed.

Lemma safe_rebuild_lists a r l rm : safe (classes_are n) (rebuild_lists a r l rm).
Proof using matcher.
  unfold rebuild_lists.
  do 7 (apply safe_bind; [safe_prim|]; intros ?).
  apply safe_bind; [apply safe_gets|]. intros st.
  destruct (remove_duplicate_tracks_Ok (heap st) (tracked_tracks st) (lost_tracks st))
    as [[ra rb] Hr].
  apply safe_bind; [apply (safe_lift_Ok _ _ _ Hr)|]. intros [ra' rb'].
  safe_auto.
Qed.

Lemma assignment_range (fused : bool) hp (rows cols : list handle) thresh :
  let dists := iou_distance (tracks_of hp rows) (tracks_of hp cols) in
  let dists := if fused then fuse_score dists (tracks_of hp cols) else dists in
  Forall (fun p => (p.1 < length rows)%nat /\ (p.2 < length cols)%nat)
    (linear_assignment dists thresh).1.1 /\
  Forall (fun i => (i < length rows)%nat) (linear_assignment dists thresh).1.2 /\
  Forall (fun j => (j < length cols)%nat) (linear_assignment dists thresh).2.
Proof using matcher.
  cbv zeta.
  destruct (iou_distance_shape matcher (tracks_of hp rows) (tracks_of hp cols))
    as (Hr & Hc & _ & _).
  rewrite !tracks_of_length in Hr, Hc.
  set (m := if fused then _ else _).
  assert (Hm : n_rows m = length rows /\ n_cols m = length cols).
  { subst m. destruct fused; [|auto].
    destruct (fuse_score_shape matcher
                (iou_distance (tracks_of hp rows) (tracks_of hp cols)) (tracks_of hp cols))
      as [-> ->]. auto. }
  destruct Hm as [Hmr Hmc].
  pose proof (linear_assignment_range matcher m thresh) as H.
  rewrite Hmr, Hmc in H. exact H.
Qed.

Lemma safe_update_with_tensors tensors : safe (classes_are n) (update_with_tensors tensors).
Proof using matcher.
  unfold update_with_tensors.
  apply safe_bind; [safe_prim|]. intros _.
  apply safe_bind; [apply safe_gets|]. intros thresh. cbv zeta.
  apply safe_bind; [apply safe_mapM; intros; safe_prim|]. intros detections.
  apply safe_bind; [apply safe_gets|]. intros st.
  apply safe_bind; [apply safe_multi_predict|]. intros _.
  apply safe_bind; [apply safe_gets|]. intros hp.
  apply safe_bind; [apply safe_gets|]. intros frame.
  pose proof (assignment_range true hp (strack_pool_of st) detections
                (minimum_matching_threshold st)) as H1. cbv zeta in H1.
  destruct (linear_assignment _ _) as [[matches u_track] u_detection].
  destruct H1 as (Hm1 & Hu1 & Hd1). simpl in Hm1, Hu1, Hd1.
  apply safe_bind; [apply safe_apply_matches, Hm1|]. intros [activated refind].
  apply safe_bind; [apply safe_mapM; intros; safe_prim|]. intros detections_second.
  apply safe_bind; [apply safe_r_tracked_of, Hu1|]. intros r_tracked.
  apply safe_bind; [apply safe_gets|]. intros hp2.
  pose proof (assignment_range false hp2 r_tracked detections_second float_0_5) as H2.
  cbv zeta in H2.
  destruct (linear_assignment _ _) as [[matches2 u_track2] u_detection_second].
  destruct H2 as (Hm2 & Hu2 & _). simpl in Hm2, Hu2.
  apply safe_bind; [apply safe_apply_matches, Hm2|]. intros [activated2 refind2].
  apply safe_bind; [apply safe_mark_lost, Hu2|]. intros lost_stracks.
  destruct (take_indices_spec detections u_detection Hd1) as (dets' & Hdets & _ & _).
  apply safe_bind; [apply (safe_lift_Ok _ _ _ Hdets)|]. intros detections'.
  apply safe_bind; [apply safe_gets|]. intros hp3.
  pose proof (assignment_range true hp3
                (unconfirmed_of (heap st) (tracked_tracks st)) detections' float_0_7) as H3.
  cbv zeta in H3.
  destruct (linear_assignment _ _) as [[matches3 u_unconfirmed] u_detection3].
  destruct H3 as (Hm3 & Hu3 & Hd3). simpl in Hm3, Hu3, Hd3.
  apply safe_bind; [apply safe_update_unconfirmed, Hm3|]. intros activated3.
  apply safe_bind; [apply safe_remove_unconfirmed, Hu3|]. intros removed.
  apply safe_bind; [apply safe_init_new_stracks, Hd3|]. intros activated4.
  apply safe_bind; [apply safe_expire_lost|]. intros removed2.
  apply safe_rebuild_lists.
Qed.

Lemma assign_ids_Ok hp tracks k matches :
  Forall (fun p => (p.1 < k)%nat /\ (p.2 < length tracks)%nat) matches ->
  exists ids, assign_ids hp tracks k matches = Ok ids.
Proof.
  intros Hm. unfold assign_ids.
  assert (Hgen : forall arr, length arr = k ->
            exists ids,
              foldM (fun (track_id_array : list Z) '(i_detection, i_track) =>
                       h ← getitem tracks i_track;
                       setitem track_id_array i_detection
                         (STrack.external_track_id (track hp h))) arr matches = Ok ids).
  { induction matches as [|[i j] matches IH]; intros arr Harr; cbn [foldM].
    - eexists. reflexivity.
    - apply Forall_cons in Hm as [[Hi Hj] Hm]. simpl in Hi, Hj.
      destruct (lookup_lt_is_Some_2 tracks j Hj) as [h Hh].
      assert (Hget : getitem tracks j = Ok h) by (unfold getitem; rewrite Hh; reflexivity).
      assert (Hset : setitem arr i (STrack.external_track_id (track hp h)) =
                     Ok (<[i := STrack.external_track_id (track hp h)]> arr))
        by (unfold setitem; rewrite decide_True by lia; reflexivity).
      rewrite Hget. simpl. rewrite Hset. simpl.
      apply IH; [exact Hm|]. rewrite length_insert. exact Harr. }
  apply Hgen. apply length_replicate.
Qed.

Lemma safe_single_cls_update xyxy conf :
  length xyxy = length conf ->
  safe (classes_are n) (single_cls_update xyxy conf).
Proof using matcher.
  intros Hlen. unfold single_cls_update.
  destruct (decide (length xyxy * length conf = 0)%nat); [apply safe_ret|].
  destruct (decide (length xyxy ≠ length conf)); [contradiction|].
  apply safe_bind; [apply safe_update_with_tensors|]. intros tracks.
  destruct (decide (0 < length tracks)%nat); [|apply safe_ret].
  apply safe_bind; [apply safe_gets|]. intros hp.
  set (costs := matrix_of _).
  pose proof (linear_assignment_range matcher costs float_0_5) as (Hm & _ & _).
  destruct (linear_assignment costs float_0_5) as [[matches u1] u2]. simpl in Hm.
  destruct (assign_ids_Ok hp tracks (length conf) matches) as [ids Hids].
  { eapply Forall_impl; [exact Hm|]. intros p. subst costs.
    unfold matrix_of, one_minus, box_iou_batch, asarray.
    cbn [n_rows n_cols arr_rows arr_cols rows_of].
    rewrite !length_fmap, length_zip_with, tracks_of_length. lia. }
  apply (safe_lift_Ok _ _ _ Hids).
Qed.

Lemma safe_update_class g current acc cls :
  0 <= cls < n ->
  (exists xyxy conf order, g !! cls = Some (xyxy, conf, order) /\
     length xyxy = length conf) ->
  safe (classes_are n) (update_class g current acc cls).
Proof using matcher.
  intros Hc (xyxy & conf & order & Hg & Hlen) st Hst.
  pose proof Hst as [Hn Hpart]. destruct (Hpart cls) as [tracked Ht]; [lia|].
  unfold update_class. destruct acc as [tid ord].
  unfold mbind, M_bind, lift, gets, modify, mret, M_ret, dict_get.
  rewrite Hg. destruct (decide (length xyxy < 1)%nat); [exact Hst|].
  rewrite Ht.
  set (st2 := set_frame_id current (set_tracked_tracks tracked st)).
  assert (H2 : classes_are n st2) by (apply (classes_are_same st); auto).
  pose proof (safe_single_cls_update xyxy conf Hlen st2 H2) as Hs.
  destruct (single_cls_update xyxy conf st2) as [[ids|e] st3]; [|contradiction].
  destruct Hs as [Hn3 Hp3]. split; [exact Hn3|].
  intros c Hc'. simpl. apply lookup_insert_is_Some.
  destruct (decide (cls = c)); [left; assumption | right; split; [assumption|apply Hp3, Hc']].
Qed.

Lemma safe_update_loop g current (cl : list Z) :
  (forall c, c ∈ cl -> 0 <= c < n /\
     exists xyxy conf order, g !! c = Some (xyxy, conf, order) /\
       length xyxy = length conf) ->
  forall acc, safe (classes_are n) (foldM (update_class g current) acc cl).
Proof using matcher.
  intros Hg acc. apply safe_foldM. intros b c Hc.
  destruct (Hg c Hc) as [Hr He]. apply safe_update_class; assumption.
Qed.

End Returns.

(** ** update, as a whole *)

Lemma Forall_zip_snd {A B} (P : B -> Prop) (l : list A) (k : list B) :
  Forall P k -> Forall (fun p => P p.2) (zip l k).
Proof.
  intros Hk. apply Forall_lookup. intros i [a b] Hi.
  apply lookup_zip_with_Some in Hi as (a' & b' & Heq & _ & Hb). inversion Heq; subst.
  simpl. exact (proj1 (Forall_lookup _ _) Hk i _ Hb).
Qed.

Section Whole.
Context `{MA : Matching}.

Lemma init_partition_ok n tat ltb mmt fr mcf st :
  init n tat ltb mmt fr mcf = Ok st -> partition_ok st /\ n_classes st = n.
Proof.
  intros H. apply init_inv in H as (_ & Hn & Hc2t & _).
  split; [|exact Hn]. intros c Hc. rewrite Hn in Hc. rewrite Hc2t.
  rewrite class_map_lookup, decide_True by exact Hc. eauto.
Qed.

Lemma class_arrays_lengths (c : Z) (dets : list (box * Q * Z)) :
  let g := add_rows ([], [], []) (class_rows c 0 dets) in
  length g.1.1 = length g.1.2.
Proof. cbv zeta. unfold add_rows. simpl. rewrite !length_fmap. reflexivity. Qed.

(** With a matcher that returns what the spec expects and class ids in
    range, an update raises nothing. *)
Lemma update_returns xs cs ks st :
  matcher_ok -> partition_ok st ->
  Forall (fun c => 0 <= c < n_classes st) ks ->
  exists out st', update xs cs ks st = (Ok out, st') /\
    partition_ok st' /\ n_classes st' = n_classes st.
Proof.
  intros matcher Hpart Hks.
  set (n := n_classes st). set (dets := zip (zip xs cs) ks).
  assert (Hall : Forall (fun p : box * Q * Z => 0 <= p.2 < n) dets)
    by (subst dets n; apply (Forall_zip_snd (fun c => 0 <= c < n_classes st)), Hks).
  destruct (cls_group_Ok n xs cs ks Hall) as (g & Hgrp & Hg). fold dets in Hg.
  rewrite (update_from_calls xs cs ks st g Hgrp). fold n.
  assert (Hsafe : safe (classes_are n) (foldM (update_class g (frame_id st)) ([], []) (range n))).
  { apply (safe_update_loop matcher). intros c Hc. apply elem_of_range in Hc.
    split; [exact Hc|]. rewrite Hg, decide_True by exact Hc.
    destruct (add_rows ([], [], []) (class_rows c 0 dets)) as [[x y] z] eqn:E.
    exists x, y, z. split; [reflexivity|].
    pose proof (class_arrays_lengths c dets) as Hl. cbv zeta in Hl. rewrite E in Hl.
    exact Hl. }
  destruct (safe_returns _ _ st Hsafe) as ([tid ord] & st1 & Hloop & Hn1 & Hp1);
    [split; [reflexivity | exact Hpart]|].
  pose proof (update_loop_flat g (frame_id st) (range n) [] st) as Hflat.
  change (flat []) with (([] : list Z), ([] : list nat)) in Hflat.
  rewrite Hloop in Hflat.
  destruct (foldM (update_class_traced g (frame_id st)) [] (range n) st)
    as [[calls|e] st1'] eqn:Hcalls; [|discriminate].
  inversion Hflat; subst st1'.
  destruct (update_calls_ok n dets g (frame_id st) (range n) Hg _ _ _ _ Hcalls)
    as (new & Hnew & Hcls & Hok).
  simpl in Hnew. subst new.
  destruct (calls_output n dets calls Hall Hcls Hok) as (out & Hout & _).
  exists out, (set_frame_id (frame_id st + 1) st1). rewrite Hout.
  split; [reflexivity|]. split; [|exact Hn1].
  intros c Hc. apply Hp1. exact Hc.
Qed.

(** C4.  An update that returns leaves the frame counter at one more than
    it found it, whatever the classes of the detections; an update of no
    detection returns the empty array and changes nothing else: every
    list, both counters and every track object are as before.  With a
    matcher that returns what the spec expects, an update with class ids in
    range does return. *)
Theorem update_frame_counter :
  (forall xs cs ks st out st',
     update xs cs ks st = (Ok out, st') -> frame_id st' = frame_id st + 1) /\
  (forall st, update [] [] [] st = (Ok [], set_frame_id (frame_id st + 1) st)) /\
  (matcher_ok -> forall xs cs ks st,
     partition_ok st -> Forall (fun c => 0 <= c < n_classes st) ks ->
     exists out st', update xs cs ks st = (Ok out, st') /\
       frame_id st' = frame_id st + 1 /\ partition_ok st').
Proof.
  assert (Hstep : forall xs cs ks st out st',
            update xs cs ks st = (Ok out, st') -> frame_id st' = frame_id st + 1).
  { intros xs cs ks st out st'. rewrite update_run.
    destruct (_cls_group (n_classes st) xs cs ks) as [g|e]; [|discriminate].
    destruct (foldM (update_class g (frame_id st)) ([], []) (range (n_classes st)) st)
      as [[[tid ord]|e] st1]; [|discriminate].
    intros H. inversion H. reflexivity. }
  split; [exact Hstep|]. split.
  - intros st. rewrite update_run.
    destruct (cls_group_Ok (n_classes st) [] [] []) as (g & -> & Hg); [constructor|].
    rewrite update_loop_skip; [reflexivity|].
    intros c Hc. apply elem_of_range in Hc. exists [], [].
    rewrite Hg, decide_True by exact Hc. reflexivity.
  - intros matcher xs cs ks st Hpart Hks.
    destruct (update_returns xs cs ks st matcher Hpart Hks) as (out & st' & Hrun & Hp & _).
    exists out, st'. split; [exact Hrun|]. split; [exact (Hstep _ _ _ _ _ _ Hrun) | exact Hp].
Qed.

(** C8.  An update that returns gives one entry for each detection (each
    position all three arrays have), and the entry at position [i] is the
    id that the call for the class of detection [i] returned for it: that
    call was made on the detections of the class in input order, detection
    [i] was its [k]-th and the entry is the [k]-th id it returned.  Each
    class has at most one call.  With a matcher that returns what the spec
    expects, an update with class ids in range does return. *)
Theorem update_alignment :
  (forall xs cs ks st out st',
     update xs cs ks st = (Ok out, st') ->
     length out = Nat.min (length xs) (Nat.min (length cs) (length ks)) /\
     exists calls st1, update_calls xs cs ks st = (Ok calls, st1) /\
       NoDup (call_cls <$> calls) /\
       forall i b q c, xs !! i = Some b -> cs !! i = Some q -> ks !! i = Some c ->
         0 <= c < n_classes st /\
         exists call k v, call ∈ calls /\ call_cls call = c /\
           call_xyxy call !! k = Some b /\ call_conf call !! k = Some q /\
           call_order call !! k = Some i /\
           call_ids call !! k = Some v /\ out !! i = Some v) /\
  (matcher_ok -> forall xs cs ks st,
     partition_ok st -> Forall (fun c => 0 <= c < n_classes st) ks ->
     exists out st', update xs cs ks st = (Ok out, st')).
Proof.
  split.
  - intros xs cs ks st out st' Hrun.
    set (n := n_classes st). set (dets := zip (zip xs cs) ks).
    destruct (decide (Forall (fun p : box * Q * Z => 0 <= p.2 < n) dets)) as [Hall|Hbad].
    2: { subst n dets. rewrite update_run, (cls_group_KeyError _ _ _ _ Hbad) in Hrun.
         discriminate. }
    destruct (cls_group_Ok n xs cs ks Hall) as (g & Hgrp & Hg). fold dets in Hg.
    rewrite (update_from_calls xs cs ks st g Hgrp) in Hrun.
    rewrite update_calls_run. fold n in Hrun |- *. rewrite Hgrp.
    destruct (foldM (update_class_traced g (frame_id st)) [] (range n) st)
      as [[calls|e] st1] eqn:Hcalls; [|discriminate].
    destruct (update_calls_ok n dets g (frame_id st) (range n) Hg _ _ _ _ Hcalls)
      as (new & Hnew & Hcls & Hok).
    simpl in Hnew. subst new.
    destruct (calls_output n dets calls Hall Hcls Hok) as (out' & Hout & Hlen & Halign).
    rewrite Hout in Hrun. inversion Hrun; subst out' st'. clear Hrun.
    split; [rewrite Hlen; subst dets; rewrite !length_zip_with; lia|].
    exists calls, st1. split; [reflexivity|]. split.
    { rewrite Hcls. apply NoDup_filter. unfold range.
      apply NoDup_fmap_2; [intros x y Hxy; lia | apply NoDup_seq]. }
    intros i b q c Hb Hq Hk.
    assert (Hi : dets !! i = Some (b, q, c)) by (apply zip3_lookup; auto).
    split; [exact (proj1 (Forall_lookup _ _) Hall i _ Hi)|].
    exact (Halign i b q c Hi).
  - intros matcher xs cs ks st Hpart Hks.
    destruct (update_returns xs cs ks st matcher Hpart Hks) as (out & st' & Hrun & _).
    eauto.
Qed.

End Whole.

Lemma fresh_partition_ok (n : Z) : partition_ok (fresh n) /\ n_classes (fresh n) = n.
Proof.
  apply (@init_partition_ok Reference.filter Reference.matching n (1 # 4) 30
           (3602879701896397 # 4503599627370496) 30 1).
  reflexivity.
Qed.

Lemma update_frame_counter_witness :
  let r := Reference.update [box_a; box_b] [9 # 10; 1 # 5] [1; 0] (fresh 2) in
  (r = (Ok [1; -1], r.2) /\ frame_id r.2 = frame_id (fresh 2) + 1) /\
  (@matcher_ok Reference.filter Reference.matching /\ partition_ok (fresh 2) /\
   Forall (fun c => 0 <= c < n_classes (fresh 2)) [1; 0] /\
   exists out st', Reference.update [box_a; box_b] [9 # 10; 1 # 5] [1; 0] (fresh 2) =
                     (Ok out, st') /\
     frame_id st' = frame_id (fresh 2) + 1 /\ partition_ok st').
Proof.
  cbv zeta.
  destruct (@update_frame_counter Reference.filter Reference.matching) as (Hstep & _ & Hret).
  assert (H : Reference.update [box_a; box_b] [9 # 10; 1 # 5] [1; 0] (fresh 2) =
              (Ok [1; -1], (Reference.update [box_a; box_b] [9 # 10; 1 # 5] [1; 0] (fresh 2)).2))
    by (vm_compute; reflexivity).
  assert (Hks : Forall (fun c => 0 <= c < n_classes (fresh 2)) [1; 0]).
  { rewrite (proj2 (fresh_partition_ok 2)). repeat constructor; lia. }
  split; [split; [exact H | exact (Hstep _ _ _ _ _ _ H)]|].
  split; [exact reference_matching_ok|].
  split; [exact (proj1 (fresh_partition_ok 2))|].
  split; [exact Hks|].
  exact (Hret reference_matching_ok _ _ _ _ (proj1 (fresh_partition_ok 2)) Hks).
Defined.

Lemma update_alignment_witness :
  let r := Reference.update [box_a; box_b; box_c] [9 # 10; 9 # 10; 9 # 10] [1; 0; 1] (fresh 2) in
  r = (Ok [2; 1; 3], r.2) /\
  (length [2; 1; 3] = Nat.min 3 (Nat.min 3 3) /\
   exists calls st1,
     @update_calls Reference.filter Reference.matching
       [box_a; box_b; box_c] [9 # 10; 9 # 10; 9 # 10] [1; 0; 1] (fresh 2) = (Ok calls, st1) /\
     NoDup (call_cls <$> calls) /\
     forall i b q c,
       [box_a; box_b; box_c] !! i = Some b -> [9 # 10; 9 # 10; 9 # 10] !! i = Some q ->
       [1; 0; 1] !! i = Some c ->
       0 <= c < n_classes (fresh 2) /\
       exists call k v, call ∈ calls /\ call_cls call = c /\
         call_xyxy call !! k = Some b /\ call_conf call !! k = Some q /\
         call_order call !! k = Some i /\
         call_ids call !! k = Some v /\ [2; 1; 3] !! i = Some v) /\
  (@matcher_ok Reference.filter Reference.matching /\ partition_ok (fresh 2) /\
   Forall (fun c => 0 <= c < n_classes (fresh 2)) [1; 0; 1] /\
   exists out st',
     Reference.update [box_a; box_b; box_c] [9 # 10; 9 # 10; 9 # 10] [1; 0; 1] (fresh 2) =
       (Ok out, st')).
Proof.
  cbv zeta.
  destruct (@update_alignment Reference.filter Reference.matching) as (Halign & Hret).
  assert (H : Reference.update [box_a; box_b; box_c] [9 # 10; 9 # 10; 9 # 10] [1; 0; 1] (fresh 2) =
              (Ok [2; 1; 3],
               (Reference.update [box_a; box_b; box_c] [9 # 10; 9 # 10; 9 # 10] [1; 0; 1]
                  (fresh 2)).2))
    by (vm_compute; reflexivity).
  assert (Hks : Forall (fun c => 0 <= c < n_classes (fresh 2)) [1; 0; 1]).
  { rewrite (proj2 (fresh_partition_ok 2)). repeat constructor; lia. }
  split; [exact H|]. split; [exact (Halign _ _ _ _ _ _ H)|].
  split; [exact reference_matching_ok|].
  split; [exact (proj1 (fresh_partition_ok 2))|].
  split; [exact Hks|].
  exact (Hret reference_matching_ok _ _ _ _ (proj1 (fresh_partition_ok 2)) Hks).
Defined.
